(** * fibdrv: the Fibonacci character device, embedded from [fibdrv.c]

    The development follows the C file top-down: native integer arithmetic,
    the fast-doubling engine [fib_sequence], the kernel heap on which the
    decimal engine works, [add_string], [reverse_string],
    [fib_sequence_string], [fib_read] and [fib_device_lseek].

    Conventions of the embedding
    - a [long long] / [loff_t] is a [Z] in the signed 64-bit range, every
      arithmetic result is wrapped with [wrap64] (the kernel is built with
      wrapping signed arithmetic); an [int] is wrapped with [to_int], a
      [size_t] with [to_u64];
    - a byte of memory is a [Z] in [0, 256); [char] is signed, as it is for
      the x86-64 kernels this module was written for, so a byte read in an
      expression has the value [char_val b];
    - the heap is a finite map from addresses to bytes, addresses are
      relative to the pointer returned by [kmalloc]; the map is an argument
      of every function, because [kmalloc] does not clear what it returns;
    - every store is recorded in a log, so that statements about which
      addresses a call writes, and in which order, can be made;
    - a [for] loop with a known trip count is a [Fixpoint] on the number of
      iterations left; [strlen] and the loop of [reverse_string] carry fuel
      that is shown never to run out.

    Range of the embedding of [fib_sequence_string].  A call is modelled
    from the point where [kmalloc] has returned a block: a failed
    allocation, after which line 105 writes through NULL, is no value of
    the model, and neither is a failing [__copy_to_user].  The [int]
    counter of the table loop and the size passed to [kmalloc] are taken
    exact, which they are for an index below [2^31 - 1]; above it the
    counter of the source wraps and its loop does not end.  Statements
    about all indices are made only where neither matters.

    The module side is embedded as well: [fib_open] and [fib_release] over
    the state of the mutex, [init_fib_dev] and [exit_fib_dev] over the
    answers of the kernel calls they make; [printk] is left out of the
    first two. *)

From Stdlib Require Import ZArith Lia List String Ascii.
From stdpp Require Import base numbers list gmap.

Local Open Scope Z_scope.

(** ** Constants of the source *)

Definition MAX_LENGTH : Z := 500.

(** [sizeof(struct strbuf)]: one [char fib[128]]. *)
Definition STRBUF_SIZE : Z := 128.

(** ** Native arithmetic *)

(** Two's complement reduction to [long long]. *)
Definition wrap64 (z : Z) : Z := (z + 2 ^ 63) mod 2 ^ 64 - 2 ^ 63.

(** Conversion to [unsigned long long] / [size_t]. *)
Definition to_u64 (z : Z) : Z := z mod 2 ^ 64.

(** Conversion to [int]. *)
Definition to_int (z : Z) : Z := (z + 2 ^ 31) mod 2 ^ 32 - 2 ^ 31.

Definition add64 (x y : Z) : Z := wrap64 (x + y).
Definition sub64 (x y : Z) : Z := wrap64 (x - y).
Definition mul64 (x y : Z) : Z := wrap64 (x * y).
Definition shl64 (x n : Z) : Z := wrap64 (Z.shiftl x n).

(** [__builtin_clzll] on a non-zero 64-bit pattern. *)
Definition clzll (k : Z) : Z := 63 - Z.log2 (to_u64 k).

(** Conversion of an [int] to a stored [char], and the value of a stored
    (signed) [char] when it is promoted to [int]. *)
Definition to_char (z : Z) : Z := z mod 256.
Definition char_val (b : Z) : Z := if b <? 128 then b else b - 256.

(** Character literals. *)
Definition NUL : Z := 0.
Definition chr0 : Z := 48.
Definition chr1 : Z := 49.

(** ** The fast-doubling scalar engine *)

(** The [for (; counter; k <<= 1, counter--)] loop.  [counter] is the number
    of iterations still to run; the last component counts the executions of
    the loop body. *)
Fixpoint fib_loop (counter : nat) (k a b : Z) (steps : nat) : Z * nat :=
  match counter with
  | O => (a, steps)
  | S counter' =>
      let t1 := mul64 a (sub64 (mul64 2 b) a) in
      let t2 := add64 (mul64 b b) (mul64 a a) in
      let '(a', b') :=
        if Z.land (to_u64 k) (Z.shiftl 1 63) =? 0
        then (t1, t2)
        else (t2, add64 t1 t2) in
      fib_loop counter' (shl64 k 1) a' b' (S steps)
  end.

(** [fib_sequence] with the number of loop iterations it ran. *)
Definition fib_sequence_run (k : Z) : Z * nat :=
  if k <? 2 then (k, O)
  else
    let len_zero := clzll k in
    let counter := 64 - len_zero in
    fib_loop (Z.to_nat counter) (shl64 k len_zero) 0 1 O.

Definition fib_sequence (k : Z) : Z := fst (fib_sequence_run k).

(** ** The seek operation *)

(** [fib_device_lseek]: [f_pos] is [file->f_pos]; the result is the new
    [file->f_pos] together with the returned position. *)
Definition lseek_resolve (f_pos offset orig : Z) : Z :=
  if orig =? 0 then offset
  else if orig =? 1 then add64 f_pos offset
  else if orig =? 2 then sub64 MAX_LENGTH offset
  else 0.

Definition lseek_clamp (new_pos : Z) : Z :=
  let new_pos := if new_pos >? MAX_LENGTH then MAX_LENGTH else new_pos in
  if new_pos <? 0 then 0 else new_pos.

Definition fib_device_lseek (f_pos offset orig : Z) : Z * Z :=
  let new_pos := lseek_clamp (lseek_resolve f_pos offset orig) in
  (new_pos, new_pos).

(** ** The kernel heap *)

(** [heap] holds the bytes, an address missing from the map reads as 0;
    [wlog] lists the addresses written so far, the latest first. *)
Record kmem := KMem { heap : gmap Z Z; wlog : list Z }.

Definition load (s : kmem) (a : Z) : Z := default 0 (heap s !! a).

Definition store (a v : Z) (s : kmem) : kmem :=
  KMem (<[a := to_char v]> (heap s)) (a :: wlog s).

(** What [kmalloc] hands out when it succeeds: whatever the heap already
    holds, nothing written yet.  The source does not test the pointer; a
    call whose allocation fails is outside the model. *)
Definition kmalloc (h : gmap Z Z) : kmem := KMem h [].

(** The size in bytes asked from [kmalloc] for index [k], and the test that
    an address lies in the block. *)
Definition kmalloc_size (k : Z) : Z := STRBUF_SIZE * (k + 1).

Definition in_block (k a : Z) : bool := (0 <=? a) && (a <? kmalloc_size k).

(** The writes of a run that fall outside the block allocated for [k]. *)
Definition oob_writes (k : Z) (s : kmem) : list Z :=
  filter (fun a => in_block k a = false) (wlog s).

(** [&res[i].fib[0]]. *)
Definition res (i : Z) : Z := i * STRBUF_SIZE.

(** The slot an address falls in. *)
Definition slot_of (a : Z) : Z := a / STRBUF_SIZE.

(** [strlen]: the scan stops at the first NUL; a run of non-zero bytes is
    no longer than the number of bytes the heap holds, so the fuel never
    runs out. *)
Fixpoint strlen_from (fuel : nat) (s : kmem) (p n : Z) : Z :=
  match fuel with
  | O => n
  | S fuel' =>
      if load s (p + n) =? NUL then n else strlen_from fuel' s p (n + 1)
  end.

Definition strlen (s : kmem) (p : Z) : Z :=
  strlen_from (S (size (heap s))) s p 0.

(** [strncpy(dst, src, n)] for a literal [src] (given without its NUL):
    exactly [n] bytes are written, NULs once [src] is used up. *)
Fixpoint strncpy (dst : Z) (src : list Z) (n : nat) (s : kmem) : kmem :=
  match n with
  | O => s
  | S n' =>
      match src with
      | [] => strncpy (dst + 1) [] n' (store dst NUL s)
      | c :: src' => strncpy (dst + 1) src' n' (store dst c s)
      end
  end.

(** The bytes [p .. p+n-1], as [__copy_to_user] reads them. *)
Definition read_bytes (s : kmem) (p : Z) (n : nat) : list Z :=
  map (fun i => load s (p + Z.of_nat i)) (seq 0 n).

(** ** The big-decimal adder *)

(** [for (...; i < hi; i++)] over both operands; [n] iterations remain. *)
Fixpoint add_both (n : nat) (x y next i carry : Z) (s : kmem) : Z * kmem :=
  match n with
  | O => (carry, s)
  | S n' =>
      let sum := (char_val (load s (x + i)) - chr0)
                 + (char_val (load s (y + i)) - chr0) + carry in
      add_both n' x y next (i + 1) (Z.quot sum 10)
               (store (next + i) (chr0 + Z.rem sum 10) s)
  end.

(** The loop over the rest of the longer operand. *)
Fixpoint add_one (n : nat) (x next i carry : Z) (s : kmem) : Z * kmem :=
  match n with
  | O => (carry, s)
  | S n' =>
      let sum := (char_val (load s (x + i)) - chr0) + carry in
      add_one n' x next (i + 1) (Z.quot sum 10)
              (store (next + i) (chr0 + Z.rem sum 10) s)
  end.

Definition add_string (x y next : Z) (s : kmem) : kmem :=
  let x_size := to_int (strlen s x) in
  let y_size := to_int (strlen s y) in
  let '(i, (carry, s)) :=
    if x_size >=? y_size then
      let '(carry, s) := add_both (Z.to_nat y_size) x y next 0 0 s in
      (x_size, add_one (Z.to_nat (x_size - y_size)) x next y_size carry s)
    else
      let '(carry, s) := add_both (Z.to_nat x_size) x y next 0 0 s in
      (y_size, add_one (Z.to_nat (y_size - x_size)) y next x_size carry s) in
  let s := if carry =? 0 then s else store (next + i) chr1 s in
  store (next + to_int (i + 1)) NUL s.

(** ** The output formatter *)

(** One pass of the loop body: the three XOR assignments. *)
Definition xor_swap (p q : Z) (s : kmem) : kmem :=
  let s := store p (Z.lxor (char_val (load s p)) (char_val (load s q))) s in
  let s := store q (Z.lxor (char_val (load s p)) (char_val (load s q))) s in
  store p (Z.lxor (char_val (load s p)) (char_val (load s q))) s.

(** [for (int i = 0; i < size - i; i++)]; [i] is converted to [size_t]
    for the subtraction and the comparison.  The loop runs at most [size]
    times, which is the fuel [reverse_string] gives it. *)
Fixpoint reverse_loop (fuel : nat) (str size i : Z) (s : kmem) : kmem :=
  match fuel with
  | O => s
  | S fuel' =>
      if to_u64 i <? to_u64 (size - to_u64 i)
      then reverse_loop fuel' str size (to_int (i + 1))
             (xor_swap (str + i) (str + to_u64 (size - to_u64 i)) s)
      else s
  end.

Definition reverse_string (str size : Z) (s : kmem) : kmem :=
  reverse_loop (Z.to_nat size) str size 0 s.

(** ** The table builder and the decimal engine *)

(** [for (int i = 2; i <= k; i++)]; [n] iterations remain.  The counter
    is exact as long as it stays an [int], that is for [k < 2^31 - 1]. *)
Fixpoint fib_table_loop (n : nat) (i : Z) (s : kmem) : kmem :=
  match n with
  | O => s
  | S n' =>
      fib_table_loop n' (i + 1)
        (add_string (res (i - 1)) (res (i - 2)) (res i) s)
  end.

(** Lines 104 to 109 of [fib_sequence_string]: the seeds and the loop. *)
Definition fib_table (k : Z) (s : kmem) : kmem :=
  let s := strncpy (res 0) [chr0] 2 s in
  let s := strncpy (res 1) [chr1] 2 s in
  fib_table_loop (Z.to_nat (k - 1)) 2 s.

(** What a call leaves behind: the bytes copied to the user buffer, the
    returned value and the heap.  The length is returned as it is: it is
    bounded by the number of bytes in the heap, far below what a
    [long long] holds. *)
Record outcome := Outcome { copied : list Z; retval : Z; after : kmem }.

Definition fib_sequence_string (k : Z) (s : kmem) : outcome :=
  let s := fib_table k s in
  let size := strlen s (res k) in
  let s := reverse_string (res k) (to_u64 (size - 1)) s in
  Outcome (read_bytes s (res k) (Z.to_nat (size + 1))) size s.

(** [fib_read]: the index is the file offset, unchecked. *)
Definition fib_read (offset : Z) (h : gmap Z Z) : outcome :=
  fib_sequence_string offset (kmalloc h).

(** ** Reference notions the statements are measured against *)

(** The Fibonacci numbers, as exact integers. *)
Fixpoint Fib_pair (n : nat) : Z * Z :=
  match n with
  | O => (0, 1)
  | S n' => let '(a, b) := Fib_pair n' in (b, a + b)
  end.

Definition Fib (n : nat) : Z := fst (Fib_pair n).

(** The ASCII decimal digits of a non-negative integer, least significant
    first, and the conventional most-significant-first string. *)
Fixpoint digits_le (fuel : nat) (n : Z) : list Z :=
  match fuel with
  | O => []
  | S fuel' =>
      if n <? 10 then [chr0 + n]
      else (chr0 + n mod 10) :: digits_le fuel' (n / 10)
  end.

Definition decimal_le (n : Z) : list Z := digits_le (S (Z.to_nat (Z.log2 n))) n.

Definition decimal (n : Z) : list Z := rev (decimal_le n).

(** The number a little-endian digit buffer stands for. *)
Fixpoint le_value (l : list Z) : Z :=
  match l with
  | [] => 0
  | c :: l' => (c - chr0) + 10 * le_value l'
  end.

(** The C string that starts at [p]: its bytes up to the NUL. *)
Definition cstring (s : kmem) (p : Z) : list Z :=
  read_bytes s p (Z.to_nat (strlen s p)).

(** A byte is an ASCII decimal digit. *)
Definition is_digit (c : Z) : Prop := chr0 <= c <= chr0 + 9.

(** Congruence modulo the width of [long long]. *)
Definition eq64 (x y : Z) : Prop := x mod 2 ^ 64 = y mod 2 ^ 64.

#[local] Instance eq64_equiv : Equivalence eq64 := eqm_setoid (2 ^ 64).
#[local] Instance eq64_add : Proper (eq64 ==> eq64 ==> eq64) Z.add :=
  Zplus_eqm (2 ^ 64).
#[local] Instance eq64_sub : Proper (eq64 ==> eq64 ==> eq64) Z.sub :=
  Zminus_eqm (2 ^ 64).
#[local] Instance eq64_mul : Proper (eq64 ==> eq64 ==> eq64) Z.mul :=
  Zmult_eqm (2 ^ 64).

(** What a caller can see of a call for index [k]: the bytes copied out,
    the returned value, and the writes that left the allocated block. *)
Definition observe (k : Z) (o : outcome) : list Z * Z * list Z :=
  (copied o, retval o, oob_writes k (after o)).

(** [fib_read] has one channel for a failure, its [ssize_t] result: an
    error is a negative value. *)
Definition reports_error (o : outcome) : Prop := retval o < 0.

(** The bytes of an ASCII literal. *)
Definition ascii_bytes (t : string) : list Z :=
  map (fun c => Z.of_N (N_of_ascii c)) (list_ascii_of_string t).

(** A heap that is zero everywhere, and one where an earlier user of the
    memory left the byte '7' where [res[2].fib[1]] will be. *)
Definition zero_heap : gmap Z Z := ∅.

Definition stale_heap : gmap Z Z := {[ res 2 + 1 := 55 ]}.

(** Two one-digit operands, "1" at address 0 and "0" at address 128, and
    the byte '7' left at offset 1 of the output buffer at address 256. *)
Definition adder_heap : gmap Z Z :=
  {[ 0 := chr1; 128 := chr0; 257 := 55 ]}.

(** ** The adder on lists of bytes *)

(** The bytes [D] written one after the other from [p] on. *)
Fixpoint store_list (p : Z) (D : list Z) (s : kmem) : kmem :=
  match D with
  | [] => s
  | d :: D' => store_list (p + 1) D' (store p d s)
  end.

(** What the two loops of [add_string] compute from the bytes they read:
    the values they store and the carry they end with. *)
Fixpoint add_both_digits (X Y : list Z) (carry : Z) : list Z * Z :=
  match X, Y with
  | x :: X', y :: Y' =>
      let sum := (char_val x - chr0) + (char_val y - chr0) + carry in
      let '(D, c) := add_both_digits X' Y' (Z.quot sum 10) in
      (chr0 + Z.rem sum 10 :: D, c)
  | _, _ => ([], carry)
  end.

Fixpoint add_one_digits (X : list Z) (carry : Z) : list Z * Z :=
  match X with
  | x :: X' =>
      let sum := (char_val x - chr0) + carry in
      let '(D, c) := add_one_digits X' (Z.quot sum 10) in
      (chr0 + Z.rem sum 10 :: D, c)
  | [] => ([], carry)
  end.

(** The byte at address [a] of a table filled up to slot [i]: the digits of
    [F(j)], least significant first, at the start of slot [j], zero
    elsewhere. *)
Definition table_byte (i a : Z) : Z :=
  if (0 <=? a / STRBUF_SIZE) && (a / STRBUF_SIZE <=? i)
  then nth (Z.to_nat (a mod STRBUF_SIZE))
           (decimal_le (Fib (Z.to_nat (a / STRBUF_SIZE)))) 0
  else 0.

(** The two loops together, on the operand strings [X] and [Y]: the values
    stored from index 0 on and the final carry. *)
Definition sum_digits (X Y : list Z) : list Z * Z :=
  let '(D1, c1) := add_both_digits X Y 0 in
  let '(D2, c2) :=
    add_one_digits (drop (length Y) X ++ drop (length X) Y) c1 in
  (D1 ++ D2, c2).

(** The block of a call for index [k] holds a table filled up to slot [i]. *)
Definition table_ok (k i : Z) (s : kmem) : Prop :=
  forall a, 0 <= a < kmalloc_size k -> load s a = table_byte i a.

(** Every write so far went into the block of the call for index [k]. *)
Definition writes_in_block (k : Z) (s : kmem) : Prop :=
  forall a, In a (wlog s) -> 0 <= a < kmalloc_size k.

(** The block handed out for index [k] happens to be all zero. *)
Definition zeroed_block (k : Z) (h : gmap Z Z) : Prop :=
  forall a, 0 <= a < kmalloc_size k -> load (kmalloc h) a = 0.

(** Every write so far went to an address in [0, b). *)
Definition writes_below (b : Z) (s : kmem) : Prop :=
  forall a, In a (wlog s) -> 0 <= a < b.

(** A write log, latest write first, that never goes back to a slot below
    one it has already written to: the slots are written one after the
    other, in increasing order. *)
Fixpoint slot_ordered (l : list Z) : Prop :=
  match l with
  | [] => True
  | a :: l' => (forall b, In b l' -> slot_of b <= slot_of a) /\ slot_ordered l'
  end.

(** ** Exclusive open *)

(** The errno value of the kernel headers. *)
Definition EBUSY : Z := 16.

(** [fib_mutex] is locked or free.  [mutex_trylock] gives 1 (and takes the
    mutex) when it is free and 0 when it is held. *)
Definition mutex_trylock (locked : bool) : bool * bool :=
  if locked then (false, true) else (true, true).

Definition mutex_unlock (locked : bool) : bool := false.

(** [fib_open] and [fib_release]: the result and the mutex afterwards. *)
Definition fib_open (locked : bool) : Z * bool :=
  let '(got, locked') := mutex_trylock locked in
  if negb got then (- EBUSY, locked') else (0, locked').

Definition fib_release (locked : bool) : Z * bool := (0, mutex_unlock locked).

(** Opens and closes in a row.  The kernel calls [release] only for a file
    whose [open] returned 0, so a close with no file open is no call at
    all.  The state is the mutex and the number of files open. *)
Inductive ocall := CallOpen | CallClose.

Definition open_step (st : bool * nat) (c : ocall) : bool * nat :=
  let '(locked, files) := st in
  match c with
  | CallOpen =>
      let '(rc, locked') := fib_open locked in
      if rc =? 0 then (locked', S files) else (locked', files)
  | CallClose =>
      match files with
      | O => (locked, files)
      | S files' => (snd (fib_release locked), files')
      end
  end.

(** ** Module initialisation and exit *)











(** * Native arithmetic: facts *)

Section Wrap.

Lemma wrap64_range z : - 2 ^ 63 <= wrap64 z < 2 ^ 63.
Proof.
  unfold wrap64.
  pose proof (Z.mod_pos_bound (z + 2 ^ 63) (2 ^ 64)). lia.
Qed.

Lemma wrap64_id z : - 2 ^ 63 <= z < 2 ^ 63 -> wrap64 z = z.
Proof.
  intros Hz. unfold wrap64. rewrite Z.mod_small; lia.
Qed.

Lemma wrap64_eq64 z : eq64 (wrap64 z) z.
Proof.
  unfold eq64, wrap64.
  rewrite Zminus_mod_idemp_l. f_equal. lia.
Qed.

Lemma wrap64_congr x y : eq64 x y -> wrap64 x = wrap64 y.
Proof.
  unfold eq64, wrap64. intros Hxy.
  rewrite <- (Zplus_mod_idemp_l x), <- (Zplus_mod_idemp_l y), Hxy.
  reflexivity.
Qed.

Lemma to_u64_wrap64 z : to_u64 (wrap64 z) = to_u64 z.
Proof. apply wrap64_eq64. Qed.

Lemma to_u64_id z : 0 <= z < 2 ^ 64 -> to_u64 z = z.
Proof. intros Hz. unfold to_u64. apply Z.mod_small. lia. Qed.

End Wrap.

(** * The seek operation *)

(** C9. For every file position, offset and positioning mode, the position
    [fib_device_lseek] stores and returns is the resolved request saturated
    to [0, MAX_LENGTH]: it always lies in that range, a request resolving
    below 0 gives 0, one resolving above [MAX_LENGTH] gives [MAX_LENGTH],
    one resolving inside the range is kept; and the from-end mode (2)
    resolves to [MAX_LENGTH - offset], before the clamp. *)
Theorem lseek_saturates (f_pos offset orig : Z) :
  let r := lseek_resolve f_pos offset orig in
  let pos := fst (fib_device_lseek f_pos offset orig) in
  snd (fib_device_lseek f_pos offset orig) = pos
  /\ 0 <= pos <= MAX_LENGTH
  /\ (r < 0 -> pos = 0)
  /\ (MAX_LENGTH < r -> pos = MAX_LENGTH)
  /\ (0 <= r <= MAX_LENGTH -> pos = r)
  /\ (orig = 2 -> r = wrap64 (MAX_LENGTH - offset))
  /\ (orig = 2 -> - 2 ^ 63 + MAX_LENGTH < offset < 2 ^ 63 ->
      r = MAX_LENGTH - offset).
Proof.
  cbv zeta. unfold fib_device_lseek, lseek_clamp, MAX_LENGTH. cbn [fst snd].
  repeat split; try (intros; repeat case_match; lia).
  - intros ->. reflexivity.
  - intros -> Hoff. unfold lseek_resolve, sub64, MAX_LENGTH. cbn [Z.eqb].
    apply wrap64_id. lia.
Qed.

Lemma lseek_saturates_witness :
  fst (fib_device_lseek 0 (-7) 2) = 500
  /\ fst (fib_device_lseek 3 (-7) 1) = 0
  /\ fst (fib_device_lseek 3 90 0) = 90
  /\ lseek_resolve 0 40 2 = 460.
Proof.
  pose proof (lseek_saturates 0 (-7) 2) as (_ & _ & _ & Hhigh & _).
  pose proof (lseek_saturates 3 (-7) 1) as (_ & _ & Hlow & _).
  pose proof (lseek_saturates 3 90 0) as (_ & _ & _ & _ & Hmid & _).
  pose proof (lseek_saturates 0 40 2) as (_ & _ & _ & _ & _ & _ & Hend).
  split; [apply Hhigh; vm_compute; reflexivity|].
  split; [apply Hlow; vm_compute; reflexivity|].
  split; [rewrite Hmid; vm_compute; [reflexivity | split; discriminate]|].
  apply Hend; [reflexivity | vm_compute; split; reflexivity].
Defined.

(** * The adder is symmetric in its operands *)

Lemma add_both_comm n : forall x y next i carry s,
  add_both n x y next i carry s = add_both n y x next i carry s.
Proof.
  induction n as [|n IH]; intros; cbn [add_both]; [reflexivity|].
  replace (char_val (load s (y + i)) - chr0 + (char_val (load s (x + i)) - chr0))
    with (char_val (load s (x + i)) - chr0 + (char_val (load s (y + i)) - chr0))
    by lia.
  apply IH.
Qed.

(** C6. [add_string(x, y, next)] and [add_string(y, x, next)] leave the same
    heap behind, byte for byte and write for write.  This holds from every
    heap and for all three pointers, so in particular for valid
    little-endian digit buffers. *)
Theorem add_string_comm (x y next : Z) (s : kmem) :
  add_string x y next s = add_string y x next s.
Proof.
  unfold add_string.
  generalize (to_int (strlen s x)) (to_int (strlen s y)).
  intros x_size y_size.
  destruct (Z.geb_spec x_size y_size) as [Hxy|Hxy];
    destruct (Z.geb_spec y_size x_size) as [Hyx|Hyx];
    try lia.
  - assert (x_size = y_size) as -> by lia.
    rewrite (add_both_comm _ x y), Z.sub_diag. reflexivity.
  - rewrite (add_both_comm _ x y). reflexivity.
  - rewrite (add_both_comm _ x y). reflexivity.
Qed.

(** * The fast-doubling engine *)

Section FastDoubling.

Lemma Fib_pair_snd n : snd (Fib_pair n) = Fib (S n).
Proof.
  unfold Fib. cbn [Fib_pair]. destruct (Fib_pair n). reflexivity.
Qed.

Lemma Fib_SS n : Fib (S (S n)) = Fib n + Fib (S n).
Proof.
  rewrite <- (Fib_pair_snd (S n)). cbn [Fib_pair].
  rewrite <- (Fib_pair_snd n). unfold Fib.
  destruct (Fib_pair n). reflexivity.
Qed.

Lemma Fib_0 : Fib 0 = 0.
Proof. reflexivity. Qed.

Lemma Fib_1 : Fib 1 = 1.
Proof. reflexivity. Qed.

Lemma Fib_nonneg n : 0 <= Fib n /\ 0 <= Fib (S n).
Proof.
  induction n as [|n [IH0 IH1]]; [rewrite Fib_0, Fib_1; lia|].
  rewrite Fib_SS. lia.
Qed.

(** The addition law, from which both doubling identities follow. *)
Lemma Fib_add m : forall n,
  Fib (m + S n) = Fib (S m) * Fib (S n) + Fib m * Fib n.
Proof.
  induction m as [|m IH]; intros n.
  - rewrite Fib_0, Fib_1. cbn [Nat.add]. lia.
  - replace (S m + S n)%nat with (m + S (S n))%nat by lia.
    rewrite IH, !Fib_SS. lia.
Qed.

Lemma Fib_double n : Fib (2 * n) = Fib n * (2 * Fib (S n) - Fib n).
Proof.
  destruct n as [|n]; [reflexivity|].
  replace (2 * S n)%nat with (S n + S n)%nat by lia.
  rewrite Fib_add, !Fib_SS. lia.
Qed.

Lemma Fib_double_S n : Fib (S (2 * n)) = Fib n * Fib n + Fib (S n) * Fib (S n).
Proof.
  replace (S (2 * n)) with (n + S n)%nat by lia.
  rewrite Fib_add. lia.
Qed.

(** The bit test of the loop reads bit 63 of the pattern. *)
Lemma land_bit63 x :
  (Z.land x (Z.shiftl 1 63) =? 0) = negb (Z.testbit x 63).
Proof.
  rewrite Z.shiftl_1_l.
  destruct (Z.testbit x 63) eqn:Hb; cbn [negb].
  - apply Z.eqb_neq. intros H0.
    apply (f_equal (fun z => Z.testbit z 63)) in H0.
    rewrite Z.land_spec, Hb, Z.pow2_bits_true, Z.bits_0 in H0 by lia.
    discriminate.
  - apply Z.eqb_eq. apply Z.bits_inj'. intros m Hm.
    rewrite Z.land_spec, Z.bits_0, Z.pow2_bits_eqb by lia.
    destruct (Z.eqb_spec 63 m) as [<-|]; [rewrite Hb|]; 
      auto using andb_false_r.
Qed.

(** Going one bit further down the index. *)
Lemma shift_step k c :
  0 <= k -> 0 < c ->
  k / 2 ^ (c - 1) = 2 * (k / 2 ^ c) + (if Z.testbit k (c - 1) then 1 else 0).
Proof.
  intros Hk Hc.
  assert (2 ^ c = 2 ^ (c - 1) * 2) as ->.
  { replace c with (Z.succ (c - 1)) at 1 by lia.
    rewrite Z.pow_succ_r by lia. lia. }
  rewrite <- Z.div_div by (try apply Z.pow_pos_nonneg; lia).
  rewrite Z.testbit_odd, Z.shiftr_div_pow2 by lia.
  pose proof (Z.div_mod (k / 2 ^ (c - 1)) 2 ltac:(lia)) as Hdm.
  rewrite Zmod_odd in Hdm.
  destruct (Z.odd (k / 2 ^ (c - 1))); lia.
Qed.

(** The loop invariant: with [c] iterations left the pair holds the
    Fibonacci numbers at the index made of the bits already consumed. *)
Lemma fib_loop_spec k : 0 <= k ->
  forall (c : nat) kcur a b steps,
    (Z.of_nat c <= 64) ->
    eq64 kcur (k * 2 ^ (64 - Z.of_nat c)) ->
    a = wrap64 (Fib (Z.to_nat (k / 2 ^ Z.of_nat c))) ->
    b = wrap64 (Fib (S (Z.to_nat (k / 2 ^ Z.of_nat c)))) ->
    fib_loop c kcur a b steps = (wrap64 (Fib (Z.to_nat k)), (steps + c)%nat).
Proof.
  intros Hk c. induction c as [|c IH]; intros kcur a b steps Hc Hcur Ha Hb.
  - cbn [fib_loop]. rewrite Ha. cbn [Z.of_nat]. rewrite Z.pow_0_r, Z.div_1_r.
    f_equal. lia.
  - cbn [fib_loop]. rewrite land_bit63.
    set (n := k / 2 ^ Z.of_nat (S c)) in *.
    assert (0 <= n) as Hn by (apply Z.div_pos; [lia|apply Z.pow_pos_nonneg; lia]).
    assert (Z.testbit (to_u64 kcur) 63 = Z.testbit k (Z.of_nat c)) as Hbit.
    { unfold to_u64. rewrite Hcur, Z.mod_pow2_bits_low by lia.
      rewrite Z.mul_pow2_bits by lia. f_equal. lia. }
    pose proof (shift_step k (Z.of_nat (S c)) Hk ltac:(lia)) as Hstep.
    replace (Z.of_nat (S c) - 1) with (Z.of_nat c) in Hstep by lia.
    fold n in Hstep. rewrite <- Hbit in Hstep.
    assert (eq64 (Z.shiftl kcur 1) (k * 2 ^ (64 - Z.of_nat c))) as Hcur'.
    { rewrite Z.shiftl_mul_pow2, Hcur by lia.
      replace (64 - Z.of_nat c) with (Z.succ (64 - Z.of_nat (S c))) by lia.
      rewrite Z.pow_succ_r by lia. 
      replace (k * 2 ^ (64 - Z.of_nat (S c)) * 2 ^ 1)
        with (k * (2 * 2 ^ (64 - Z.of_nat (S c)))) by lia.
      reflexivity. }
    assert (mul64 a (sub64 (mul64 2 b) a) = wrap64 (Fib (2 * Z.to_nat n)))
      as Ht1.
    { unfold mul64, sub64. apply wrap64_congr.
      rewrite Ha, Hb. repeat setoid_rewrite wrap64_eq64.
      rewrite Fib_double. reflexivity. }
    assert (add64 (mul64 b b) (mul64 a a) = wrap64 (Fib (S (2 * Z.to_nat n))))
      as Ht2.
    { unfold add64, mul64. apply wrap64_congr.
      rewrite Ha, Hb. repeat setoid_rewrite wrap64_eq64.
      rewrite Fib_double_S. unfold eq64. f_equal. lia. }
    rewrite Ht1, Ht2.
    replace (steps + S c)%nat with (S steps + c)%nat by lia.
    destruct (Z.testbit (to_u64 kcur) 63); cbn [negb].
    + apply IH; [lia| setoid_rewrite wrap64_eq64; exact Hcur' | |].
      * rewrite Hstep. f_equal. f_equal. lia.
      * rewrite Hstep. unfold add64. apply wrap64_congr.
        repeat setoid_rewrite wrap64_eq64.
        replace (S (Z.to_nat (2 * n + 1))) with (S (S (2 * Z.to_nat n))) by lia.
        rewrite Fib_SS. reflexivity.
    + apply IH; [lia| setoid_rewrite wrap64_eq64; exact Hcur' | |].
      * rewrite Hstep. f_equal. f_equal. lia.
      * rewrite Hstep. f_equal. f_equal. lia.
Qed.

Lemma fib_sequence_run_spec k :
  2 <= k < 2 ^ 63 ->
  fib_sequence_run k
  = (wrap64 (Fib (Z.to_nat k)), Z.to_nat (Z.log2 k + 1)).
Proof.
  intros Hk. unfold fib_sequence_run.
  destruct (Z.ltb_spec k 2) as [|_]; [lia|].
  unfold clzll. rewrite to_u64_id by lia.
  pose proof (Z.log2_spec k ltac:(lia)) as [Hlo Hhi].
  assert (Z.log2 k < 63) as Hlog.
  { apply Z.log2_lt_pow2; lia. }
  pose proof (Z.log2_nonneg k) as Hlog0.
  replace (64 - (63 - Z.log2 k)) with (Z.log2 k + 1) by lia.
  rewrite (fib_loop_spec k ltac:(lia)); try reflexivity.
  - lia.
  - unfold shl64. setoid_rewrite wrap64_eq64.
    rewrite Z.shiftl_mul_pow2, Z2Nat.id by lia.
    replace (64 - (Z.log2 k + 1)) with (63 - Z.log2 k) by lia. reflexivity.
  - rewrite Z2Nat.id by lia.
    replace (Z.log2 k + 1) with (Z.succ (Z.log2 k)) by lia.
    rewrite Z.div_small by lia. reflexivity.
  - rewrite Z2Nat.id by lia.
    replace (Z.log2 k + 1) with (Z.succ (Z.log2 k)) by lia.
    rewrite Z.div_small by lia. reflexivity.
Qed.

End FastDoubling.

(** C4. For every index [k >= 0] that a [long long] can hold,
    [fib_sequence k] is [F(k)] reduced to the native 64-bit width; it is
    [F(k)] itself whenever [F(k)] fits; [fib_sequence 50 = 12586269025];
    and for [k < 2] the function returns [k] without a single pass through
    the doubling loop. *)
Theorem fib_sequence_wraps :
  (forall k, 0 <= k < 2 ^ 63 -> fib_sequence k = wrap64 (Fib (Z.to_nat k)))
  /\ (forall k, 0 <= k < 2 ^ 63 -> Fib (Z.to_nat k) < 2 ^ 63 ->
      fib_sequence k = Fib (Z.to_nat k))
  /\ fib_sequence 50 = 12586269025
  /\ (forall k, k < 2 -> fib_sequence_run k = (k, O)).
Proof.
  assert (forall k, 0 <= k < 2 ^ 63 ->
                    fib_sequence k = wrap64 (Fib (Z.to_nat k))) as Hmain.
  { intros k Hk. unfold fib_sequence.
    destruct (Z.lt_ge_cases k 2) as [Hlt|Hge].
    - unfold fib_sequence_run. destruct (Z.ltb_spec k 2) as [_|]; [|lia].
      cbn [fst]. assert (k = 0 \/ k = 1) as [-> | ->] by lia; reflexivity.
    - rewrite fib_sequence_run_spec by lia. reflexivity. }
  split; [exact Hmain|]. split; [|split].
  - intros k Hk Hfit. rewrite Hmain by exact Hk.
    apply wrap64_id. pose proof (Fib_nonneg (Z.to_nat k)). lia.
  - vm_compute. reflexivity.
  - intros k Hk. unfold fib_sequence_run.
    destruct (Z.ltb_spec k 2) as [_|]; [reflexivity|lia].
Qed.

Lemma fib_sequence_wraps_witness :
  fib_sequence 93 = wrap64 (Fib 93)
  /\ fib_sequence 92 = Fib 92
  /\ fib_sequence_run 1 = (1, O).
Proof.
  pose proof fib_sequence_wraps as (Hwrap & Hfit & _ & Hsmall).
  split; [apply (Hwrap 93); vm_compute; split; [discriminate|reflexivity]|].
  split; [apply (Hfit 92); vm_compute; try reflexivity;
          split; [discriminate|reflexivity]|].
  apply (Hsmall 1). reflexivity.
Defined.

(** * The heap: reads after writes *)

Lemma load_store_eq a v s : load (store a v s) a = to_char v.
Proof. unfold load, store. cbn [heap]. rewrite lookup_insert_eq. reflexivity. Qed.

Lemma load_store_ne a a' v s : a <> a' -> load (store a v s) a' = load s a'.
Proof.
intros Hne. unfold load, store. cbn [heap].
rewrite lookup_insert_ne by exact Hne. reflexivity.
Qed.

Lemma to_char_range z : 0 <= to_char z < 256.
Proof. unfold to_char. apply Z.mod_pos_bound. lia. Qed.

Lemma to_char_id z : 0 <= z < 256 -> to_char z = z.
Proof. intros Hz. unfold to_char. apply Z.mod_small. exact Hz. Qed.

Lemma to_char_char_val b : 0 <= b < 256 -> to_char (char_val b) = b.
Proof.
intros Hb. unfold to_char, char_val.
destruct (Z.ltb_spec b 128).
- apply Z.mod_small. lia.
- replace (b - 256) with (b + (-1) * 256) by lia.
  rewrite Z_mod_plus_full. apply Z.mod_small. lia.
Qed.

Lemma char_val_digit c : is_digit c -> char_val c - chr0 = c - chr0.
Proof.
unfold is_digit, chr0, char_val. intros Hc.
destruct (Z.ltb_spec c 128); lia.
Qed.

(** * The output formatter reverses the whole buffer *)

Section Reverse.

Lemma to_char_lxor x y : to_char (Z.lxor x y) = Z.lxor (to_char x) (to_char y).
Proof.
unfold to_char. change 256 with (2 ^ 8).
apply Z.bits_inj'. intros i Hi.
rewrite Z.lxor_spec, !Z.testbit_mod_pow2, Z.lxor_spec by lia.
destruct (i <? 8); reflexivity.
Qed.

(** On bytes the promotion to [int] and the conversion back cancel around
    the exclusive or. *)
Lemma xor_bytes a b :
  0 <= a < 256 -> 0 <= b < 256 ->
  to_char (Z.lxor (char_val a) (char_val b)) = Z.lxor a b
  /\ 0 <= Z.lxor a b < 256.
Proof.
intros Ha Hb.
assert (to_char (Z.lxor (char_val a) (char_val b)) = Z.lxor a b) as Heq.
{ rewrite to_char_lxor, !to_char_char_val by assumption. reflexivity. }
split; [exact Heq|]. rewrite <- Heq. apply to_char_range.
Qed.

Lemma xor_swap_spec p q s :
  p <> q ->
  0 <= load s p < 256 -> 0 <= load s q < 256 ->
  load (xor_swap p q s) p = load s q
  /\ load (xor_swap p q s) q = load s p
  /\ (forall a, a <> p -> a <> q -> load (xor_swap p q s) a = load s a).
Proof.
intros Hpq Hp Hq. unfold xor_swap.
destruct (xor_bytes _ _ Hp Hq) as [H1 R1].
set (s1 := store p _ s).
assert (load s1 p = Z.lxor (load s p) (load s q)) as L1p
  by (unfold s1; rewrite load_store_eq; exact H1).
assert (load s1 q = load s q) as L1q
  by (unfold s1; apply load_store_ne; exact Hpq).
set (s2 := store q _ s1).
assert (load s2 q = load s p) as L2q.
{ unfold s2. rewrite load_store_eq, L1p, L1q.
  destruct (xor_bytes _ _ R1 Hq) as [-> _].
  rewrite Z.lxor_assoc, Z.lxor_nilpotent, Z.lxor_0_r. reflexivity. }
assert (load s2 p = Z.lxor (load s p) (load s q)) as L2p.
{ unfold s2. rewrite load_store_ne by congruence. exact L1p. }
split; [|split].
- rewrite load_store_eq, L2p, L2q.
  destruct (xor_bytes _ _ R1 Hp) as [-> _].
  rewrite (Z.lxor_comm (load s p)), Z.lxor_assoc, Z.lxor_nilpotent, Z.lxor_0_r.
  reflexivity.
- rewrite load_store_ne by exact Hpq. exact L2q.
- intros a Hap Haq.
  rewrite load_store_ne by congruence.
  unfold s2. rewrite load_store_ne by congruence.
  unfold s1. apply load_store_ne. congruence.
Qed.

Lemma to_int_id z : - 2 ^ 31 <= z < 2 ^ 31 -> to_int z = z.
Proof. intros Hz. unfold to_int. rewrite Z.mod_small; lia. Qed.

(** The loop started at [i] reverses the bytes [i .. size - i] and touches
    nothing else; the fuel is not what stops it. *)
Lemma reverse_loop_spec str size : 0 <= size < 2 ^ 31 ->
  forall (fuel : nat) i s,
    0 <= i -> 2 * i <= size + 1 -> size - 2 * i <= 2 * Z.of_nat fuel ->
    (forall j, 0 <= j <= size -> 0 <= load s (str + j) < 256) ->
    (forall j, i <= j <= size - i ->
       load (reverse_loop fuel str size i s) (str + j) = load s (str + (size - j)))
    /\ (forall a, ~ (str + i <= a <= str + (size - i)) ->
       load (reverse_loop fuel str size i s) a = load s a).
Proof.
intros Hsize fuel.
induction fuel as [|fuel IH]; intros i s Hi Hi2 Hfuel Hbytes.
- cbn [reverse_loop]. split; [|reflexivity].
  intros j Hj. f_equal. lia.
- cbn [reverse_loop].
  assert (to_u64 i = i) as -> by (apply to_u64_id; lia).
  assert (to_u64 (size - i) = size - i) as -> by (apply to_u64_id; lia).
  assert (to_int (i + 1) = i + 1) as -> by (apply to_int_id; lia).
  destruct (Z.ltb_spec i (size - i)) as [Hlt|Hge].
  + destruct (xor_swap_spec (str + i) (str + (size - i)) s)
      as (Hp & Hq & Hframe);
      [lia | apply Hbytes; lia | apply Hbytes; lia |].
    set (s1 := xor_swap (str + i) (str + (size - i)) s) in *.
    destruct (IH (i + 1) s1) as [Hrev Hsame]; [lia | lia | lia | |].
    { intros j Hj.
      destruct (Z.eq_dec j i) as [->|Hji]; [rewrite Hp; apply Hbytes; lia|].
      destruct (Z.eq_dec j (size - i)) as [->|Hjs];
        [rewrite Hq; apply Hbytes; lia|].
      rewrite Hframe by lia. apply Hbytes; lia. }
    split.
    * intros j Hj.
      destruct (Z.eq_dec j i) as [->|Hji].
      { rewrite Hsame by lia. exact Hp. }
      destruct (Z.eq_dec j (size - i)) as [->|Hjs].
      { rewrite Hsame by lia. rewrite Hq. f_equal. lia. }
      rewrite Hrev by lia. apply Hframe; lia.
    * intros a Ha. rewrite Hsame by lia. apply Hframe; lia.
  + split; [|reflexivity]. intros j Hj. f_equal. lia.
Qed.

End Reverse.

(** C5. As [fib_sequence_string] invokes it, with [size - 1] for a string of
    [size] bytes, [reverse_string] reverses the buffer over its full
    length [n]: the byte at position [i] ends up at position [n - 1 - i]
    for every [i < n] (the most significant digit, at [n - 1], lands at 0),
    nothing outside the buffer changes, and a buffer of length 1 is left
    as it is.  The length is one an [int] counter can run over. *)
Theorem reverse_string_full_length (s : kmem) (str n : Z) :
  1 <= n <= 2 ^ 31 ->
  (forall j, 0 <= j < n -> 0 <= load s (str + j) < 256) ->
  let s' := reverse_string str (to_u64 (n - 1)) s in
  (forall i, 0 <= i < n -> load s' (str + (n - 1 - i)) = load s (str + i))
  /\ (forall a, ~ (str <= a < str + n) -> load s' a = load s a)
  /\ (n = 1 -> s' = s)
  /\ (forall k s0,
        after (fib_sequence_string k s0)
        = reverse_string (res k)
            (to_u64 (strlen (fib_table k s0) (res k) - 1)) (fib_table k s0)).
Proof.
intros Hn Hbytes. cbv zeta.
rewrite to_u64_id by lia.
unfold reverse_string.
destruct (reverse_loop_spec str (n - 1) ltac:(lia) (Z.to_nat (n - 1)) 0 s)
  as [Hrev Hsame]; [lia | lia | lia | intros j Hj; apply Hbytes; lia |].
split; [|split; [|split]].
- intros i Hi. rewrite Hrev by lia. f_equal. lia.
- intros a Ha. apply Hsame. lia.
- intros ->. reflexivity.
- intros k s0. reflexivity.
Qed.

Lemma reverse_string_full_length_witness :
  let s := kmalloc (list_to_map [(0, 52); (1, 51); (2, 50); (3, 49)]) in
  load (reverse_string 0 (to_u64 (4 - 1)) s) (0 + (4 - 1 - 3)) = load s (0 + 3).
Proof.
intros s.
assert (1 <= 4 <= 2 ^ 31) as Hn by lia.
assert (forall j, 0 <= j < 4 -> 0 <= load s (0 + j) < 256) as Hbytes.
{ intros j Hj.
  assert (j = 0 \/ j = 1 \/ j = 2 \/ j = 3) as [-> | [-> | [-> | ->]]] by lia;
    vm_compute; split; congruence. }
destruct (reverse_string_full_length s 0 4 Hn Hbytes) as [Hrev _].
apply Hrev. lia.
Defined.

(** * [strlen] finds the terminator *)

Section Strlen.

Lemma strlen_from_ge fuel : forall s p n, n <= strlen_from fuel s p n.
Proof.
induction fuel as [|fuel IH]; intros s p n; cbn [strlen_from]; [lia|].
destruct (load s (p + n) =? NUL); [lia|].
specialize (IH s p (n + 1)). lia.
Qed.

Lemma strlen_nonneg s p : 0 <= strlen s p.
Proof. apply strlen_from_ge. Qed.

Lemma strlen_from_spec fuel : forall s p n,
  n <= strlen_from fuel s p n <= n + Z.of_nat fuel
  /\ (forall j, n <= j < strlen_from fuel s p n -> load s (p + j) <> NUL)
  /\ (load s (p + strlen_from fuel s p n) = NUL
      \/ strlen_from fuel s p n = n + Z.of_nat fuel).
Proof.
induction fuel as [|fuel IH]; intros s p n; cbn [strlen_from].
- split; [lia|]. split; [intros j Hj; lia | right; lia].
- destruct (Z.eqb_spec (load s (p + n)) NUL) as [Hz|Hnz].
  + split; [lia|]. split; [intros j Hj; lia | left; exact Hz].
  + destruct (IH s p (n + 1)) as (Hrange & Hrun & Hend).
    split; [lia|]. split.
    * intros j Hj. destruct (Z.eq_dec j n) as [->|Hne]; [exact Hnz|].
      apply Hrun. lia.
    * destruct Hend as [Hend|Hend]; [left; exact Hend | right; lia].
Qed.

(** A run of non-zero bytes cannot be longer than the heap has entries. *)
Lemma nonzero_run_bound (m : gmap Z Z) (p : Z) (n : nat) :
  (forall j, 0 <= j < Z.of_nat n -> default 0 (m !! (p + j)) <> 0) ->
  (n <= size m)%nat.
Proof.
intros Hrun.
set (addrs := (fun i : nat => p + Z.of_nat i) <$> seq 0 n).
assert (NoDup addrs) as Hnodup.
{ apply NoDup_fmap_2; [intros i j Hij; lia | apply NoDup_seq]. }
assert ((list_to_set addrs : gset Z) ⊆ dom m) as Hsub.
{ intros a Ha. apply elem_of_list_to_set, list_elem_of_fmap in Ha.
  destruct Ha as (i & -> & Hi). apply elem_of_seq in Hi.
  apply elem_of_dom. specialize (Hrun (Z.of_nat i) ltac:(lia)).
  destruct (m !! (p + Z.of_nat i)); [eauto | contradiction]. }
apply subseteq_size in Hsub.
rewrite size_list_to_set, size_dom in Hsub by exact Hnodup.
unfold addrs in Hsub. rewrite length_fmap, length_seq in Hsub. exact Hsub.
Qed.

Lemma strlen_spec s p :
  0 <= strlen s p
  /\ (forall j, 0 <= j < strlen s p -> load s (p + j) <> NUL)
  /\ load s (p + strlen s p) = NUL.
Proof.
unfold strlen.
destruct (strlen_from_spec (S (size (heap s))) s p 0) as (Hrange & Hrun & Hend).
split; [lia|]. split; [exact Hrun|].
destruct Hend as [Hend|Hend]; [exact Hend|]. exfalso.
pose proof (nonzero_run_bound (heap s) p (S (size (heap s)))) as Hbound.
assert (S (size (heap s)) <= size (heap s))%nat; [|lia].
apply Hbound. intros j Hj. apply (Hrun j). lia.
Qed.

(** The length of the string at [p] is the offset of its first NUL. *)
Lemma strlen_unique s p n :
  0 <= n ->
  (forall j, 0 <= j < n -> load s (p + j) <> NUL) ->
  load s (p + n) = NUL ->
  strlen s p = n.
Proof.
intros Hn Hrun Hend.
destruct (strlen_spec s p) as (Hlen & Hrun' & Hend').
destruct (Z.lt_trichotomy (strlen s p) n) as [Hlt|[Heq|Hgt]]; [|exact Heq|].
- exfalso. apply (Hrun (strlen s p)); [lia | exact Hend'].
- exfalso. apply (Hrun' n); [lia | exact Hend].
Qed.

End Strlen.

(** * Writes are only ever added to the log *)

Section WriteLog.

Lemma xor_swap_wlog p q s : wlog (xor_swap p q s) = [p; q; p] ++ wlog s.
Proof. reflexivity. Qed.

Lemma reverse_loop_wlog fuel : forall str size i s,
  exists l, wlog (reverse_loop fuel str size i s) = l ++ wlog s.
Proof.
induction fuel as [|fuel IH]; intros str size i s; cbn [reverse_loop].
- exists []. reflexivity.
- destruct (to_u64 i <? to_u64 (size - to_u64 i)).
  + destruct (IH str size (to_int (i + 1))
                (xor_swap (str + i) (str + to_u64 (size - to_u64 i)) s))
      as [l Hl].
    rewrite Hl, xor_swap_wlog.
    exists (l ++ [str + i; str + to_u64 (size - to_u64 i); str + i]).
    rewrite <- app_assoc. reflexivity.
  + exists []. reflexivity.
Qed.

End WriteLog.

(** * The adder, loop by loop *)

Section AdderLoops.

Lemma read_bytes_S s p n :
  read_bytes s p (S n) = load s p :: read_bytes s (p + 1) n.
Proof.
unfold read_bytes. cbn [seq map]. rewrite Z.add_0_r. f_equal.
rewrite <- seq_shift, map_map. apply map_ext. intros i. f_equal. lia.
Qed.

Lemma read_bytes_length s p n : length (read_bytes s p n) = n.
Proof. unfold read_bytes. rewrite length_map, length_seq. reflexivity. Qed.

Lemma read_bytes_ext s s' p n :
  (forall j, 0 <= j < Z.of_nat n -> load s' (p + j) = load s (p + j)) ->
  read_bytes s' p n = read_bytes s p n.
Proof.
intros Hsame. unfold read_bytes. apply map_ext_in. intros i Hi.
apply in_seq in Hi. apply Hsame. lia.
Qed.

Lemma read_bytes_nth s p n (j : nat) :
  (j < n)%nat -> nth j (read_bytes s p n) 0 = load s (p + Z.of_nat j).
Proof.
intros Hj. unfold read_bytes.
rewrite (nth_indep _ 0 (load s (p + Z.of_nat 0))) by (rewrite length_map, length_seq; lia).
rewrite (map_nth (fun i => load s (p + Z.of_nat i))), seq_nth by lia. reflexivity.
Qed.

Lemma add_both_eq n : forall x y next i carry s,
  (forall j j', 0 <= j < j' -> j' < Z.of_nat n ->
     next + i + j <> x + i + j' /\ next + i + j <> y + i + j') ->
  add_both n x y next i carry s
  = (snd (add_both_digits (read_bytes s (x + i) n) (read_bytes s (y + i) n) carry),
     store_list (next + i)
       (fst (add_both_digits (read_bytes s (x + i) n) (read_bytes s (y + i) n) carry))
       s).
Proof.
induction n as [|n IH]; intros x y next i carry s Hdisj; [reflexivity|].
cbn [add_both]. rewrite IH.
2:{ intros j j' Hj Hj'. specialize (Hdisj (j + 1) (j' + 1)). lia. }
rewrite !read_bytes_S. cbn [add_both_digits].
set (sum := char_val (load s (x + i)) - chr0 + (char_val (load s (y + i)) - chr0) + carry).
rewrite (read_bytes_ext s (store _ _ s) (x + (i + 1))).
2:{ intros j Hj. apply load_store_ne. specialize (Hdisj 0 (j + 1)). lia. }
rewrite (read_bytes_ext s (store _ _ s) (y + (i + 1))).
2:{ intros j Hj. apply load_store_ne. specialize (Hdisj 0 (j + 1)). lia. }
replace (x + i + 1) with (x + (i + 1)) by lia.
replace (y + i + 1) with (y + (i + 1)) by lia.
destruct (add_both_digits _ _ (Z.quot sum 10)) as [D c]. cbn [fst snd store_list].
replace (next + i + 1) with (next + (i + 1)) by lia. reflexivity.
Qed.

Lemma add_one_eq n : forall x next i carry s,
  (forall j j', 0 <= j < j' -> j' < Z.of_nat n -> next + i + j <> x + i + j') ->
  add_one n x next i carry s
  = (snd (add_one_digits (read_bytes s (x + i) n) carry),
     store_list (next + i) (fst (add_one_digits (read_bytes s (x + i) n) carry)) s).
Proof.
induction n as [|n IH]; intros x next i carry s Hdisj; [reflexivity|].
cbn [add_one]. rewrite IH.
2:{ intros j j' Hj Hj'. specialize (Hdisj (j + 1) (j' + 1)). lia. }
rewrite !read_bytes_S. cbn [add_one_digits].
set (sum := char_val (load s (x + i)) - chr0 + carry).
rewrite (read_bytes_ext s (store _ _ s) (x + (i + 1))).
2:{ intros j Hj. apply load_store_ne. specialize (Hdisj 0 (j + 1)). lia. }
replace (x + i + 1) with (x + (i + 1)) by lia.
destruct (add_one_digits _ (Z.quot sum 10)) as [D c]. cbn [fst snd store_list].
replace (next + i + 1) with (next + (i + 1)) by lia. reflexivity.
Qed.

Lemma load_store_list D : forall p s a,
  load (store_list p D s) a
  = if (p <=? a) && (a <? p + Z.of_nat (length D))
    then to_char (nth (Z.to_nat (a - p)) D 0)
    else load s a.
Proof.
induction D as [|d D IH]; intros p s a; cbn [store_list length].
- destruct (Z.leb_spec p a), (Z.ltb_spec a (p + Z.of_nat 0)); cbn; lia || reflexivity.
- rewrite IH. destruct (Z.eq_dec a p) as [->|Hne].
  + destruct (Z.leb_spec (p + 1) p); [lia|]. cbn [andb].
    destruct (Z.leb_spec p p); [|lia].
    destruct (Z.ltb_spec p (p + Z.of_nat (S (length D)))); [|lia].
    cbn [andb]. rewrite load_store_eq, Z.sub_diag. reflexivity.
  + rewrite load_store_ne by congruence.
    destruct (Z.leb_spec (p + 1) a), (Z.ltb_spec a (p + 1 + Z.of_nat (length D)));
      destruct (Z.leb_spec p a), (Z.ltb_spec a (p + Z.of_nat (S (length D))));
      cbn [andb]; try lia; try reflexivity.
    replace (Z.to_nat (a - p)) with (S (Z.to_nat (a - (p + 1)))) by lia.
    reflexivity.
Qed.

Lemma wlog_store_list D : forall p s,
  wlog (store_list p D s)
  = rev (map (fun i => p + Z.of_nat i) (seq 0 (length D))) ++ wlog s.
Proof.
induction D as [|d D IH]; intros p s; cbn [store_list length]; [reflexivity|].
rewrite IH. cbn [seq map rev wlog store]. rewrite <- seq_shift, map_map.
rewrite <- app_assoc. cbn [app]. rewrite Z.add_0_r. f_equal. f_equal.
apply map_ext. intros i. lia.
Qed.

End AdderLoops.

(** * The adder on digit lists: exact addition *)

Section AdderValue.

Lemma le_value_app A B :
  le_value (A ++ B) = le_value A + 10 ^ Z.of_nat (length A) * le_value B.
Proof.
induction A as [|a A IH]; cbn [app le_value length].
- rewrite Z.pow_0_r. lia.
- rewrite IH, Nat2Z.inj_succ, Z.pow_succ_r by lia. lia.
Qed.

Lemma digit_step x y carry :
  is_digit x -> is_digit y -> 0 <= carry <= 1 ->
  let sum := (char_val x - chr0) + (char_val y - chr0) + carry in
  is_digit (chr0 + Z.rem sum 10)
  /\ 0 <= Z.quot sum 10 <= 1
  /\ (chr0 + Z.rem sum 10 - chr0) + 10 * Z.quot sum 10
     = (x - chr0) + (y - chr0) + carry.
Proof.
intros Hx Hy Hc. cbv zeta.
rewrite (char_val_digit x Hx), (char_val_digit y Hy).
unfold is_digit, chr0 in *.
rewrite Z.rem_mod_nonneg, Z.quot_div_nonneg by lia.
pose proof (Z.div_mod (x - 48 + (y - 48) + carry) 10 ltac:(lia)).
pose proof (Z.mod_pos_bound (x - 48 + (y - 48) + carry) 10 ltac:(lia)).
lia.
Qed.

Lemma digit_step_one x carry :
  is_digit x -> 0 <= carry <= 1 ->
  let sum := (char_val x - chr0) + carry in
  is_digit (chr0 + Z.rem sum 10)
  /\ 0 <= Z.quot sum 10 <= 1
  /\ (chr0 + Z.rem sum 10 - chr0) + 10 * Z.quot sum 10 = (x - chr0) + carry.
Proof.
intros Hx Hc. cbv zeta.
rewrite (char_val_digit x Hx).
unfold is_digit, chr0 in *.
rewrite Z.rem_mod_nonneg, Z.quot_div_nonneg by lia.
pose proof (Z.div_mod (x - 48 + carry) 10 ltac:(lia)).
pose proof (Z.mod_pos_bound (x - 48 + carry) 10 ltac:(lia)).
lia.
Qed.

Lemma add_both_digits_value X : forall Y carry,
  Forall is_digit X -> Forall is_digit Y -> length X = length Y ->
  0 <= carry <= 1 ->
  Forall is_digit (fst (add_both_digits X Y carry))
  /\ length (fst (add_both_digits X Y carry)) = length X
  /\ 0 <= snd (add_both_digits X Y carry) <= 1
  /\ le_value (fst (add_both_digits X Y carry))
     + 10 ^ Z.of_nat (length X) * snd (add_both_digits X Y carry)
     = le_value X + le_value Y + carry.
Proof.
induction X as [|x X IH]; intros [|y Y] carry HX HY Hlen Hc;
  try discriminate; cbn [add_both_digits fst snd le_value length].
- split; [constructor|]. split; [reflexivity|]. split; [lia|].
  rewrite Z.pow_0_r. lia.
- inversion HX as [|? ? Hx HX']; inversion HY as [|? ? Hy HY']; subst.
  destruct (digit_step x y carry Hx Hy Hc) as (Hd & Hq & Hsum).
  set (sum := char_val x - chr0 + (char_val y - chr0) + carry) in *.
  destruct (IH Y (Z.quot sum 10) HX' HY' ltac:(cbn in Hlen; lia) Hq)
    as (HD & HlenD & Hc' & Hval).
  destruct (add_both_digits X Y (Z.quot sum 10)) as [D c].
  cbn [fst snd le_value length] in *.
  split; [constructor; assumption|]. split; [lia|]. split; [lia|].
  rewrite Nat2Z.inj_succ, Z.pow_succ_r by lia. lia.
Qed.

Lemma add_one_digits_value X : forall carry,
  Forall is_digit X -> 0 <= carry <= 1 ->
  Forall is_digit (fst (add_one_digits X carry))
  /\ length (fst (add_one_digits X carry)) = length X
  /\ 0 <= snd (add_one_digits X carry) <= 1
  /\ le_value (fst (add_one_digits X carry))
     + 10 ^ Z.of_nat (length X) * snd (add_one_digits X carry)
     = le_value X + carry.
Proof.
induction X as [|x X IH]; intros carry HX Hc;
  cbn [add_one_digits fst snd le_value length].
- split; [constructor|]. split; [reflexivity|]. split; [lia|].
  rewrite Z.pow_0_r. lia.
- inversion HX as [|? ? Hx HX']; subst.
  destruct (digit_step_one x carry Hx Hc) as (Hd & Hq & Hsum).
  set (sum := char_val x - chr0 + carry) in *.
  destruct (IH (Z.quot sum 10) HX' Hq) as (HD & HlenD & Hc' & Hval).
  destruct (add_one_digits X (Z.quot sum 10)) as [D c].
  cbn [fst snd le_value length] in *.
  split; [constructor; assumption|]. split; [lia|]. split; [lia|].
  rewrite Nat2Z.inj_succ, Z.pow_succ_r by lia. lia.
Qed.

(** The first loop stops with the shorter operand. *)
Lemma add_both_digits_app_l X1 : forall X2 Y carry,
  length X1 = length Y ->
  add_both_digits (X1 ++ X2) Y carry = add_both_digits X1 Y carry.
Proof.
induction X1 as [|x X1 IH]; intros X2 [|y Y] carry Hlen; try discriminate.
- destruct X2; reflexivity.
- cbn [app add_both_digits]. rewrite IH by (cbn in Hlen; lia). reflexivity.
Qed.

Lemma add_both_digits_app_r X : forall Y1 Y2 carry,
  length X = length Y1 ->
  add_both_digits X (Y1 ++ Y2) carry = add_both_digits X Y1 carry.
Proof.
induction X as [|x X IH]; intros [|y Y1] Y2 carry Hlen; try discriminate.
- reflexivity.
- cbn [app add_both_digits]. rewrite IH by (cbn in Hlen; lia). reflexivity.
Qed.

(** Schoolbook addition is exact: the digits and the carry stand for the
    sum of the operands. *)
Lemma sum_digits_value X Y :
  Forall is_digit X -> Forall is_digit Y ->
  Forall is_digit (fst (sum_digits X Y))
  /\ length (fst (sum_digits X Y)) = Nat.max (length X) (length Y)
  /\ 0 <= snd (sum_digits X Y) <= 1
  /\ le_value (fst (sum_digits X Y))
     + 10 ^ Z.of_nat (Nat.max (length X) (length Y)) * snd (sum_digits X Y)
     = le_value X + le_value Y.
Proof.
intros HX HY. unfold sum_digits.
set (n := Nat.min (length X) (length Y)).
pose proof (eq_refl : n = Nat.min (length X) (length Y)) as Hn.
assert (add_both_digits X Y 0 = add_both_digits (take n X) (take n Y) 0) as ->.
{ rewrite <- (take_drop n X) at 1. rewrite <- (take_drop n Y) at 1.
  destruct (Nat.le_ge_cases (length X) (length Y)) as [Hle|Hle].
  - rewrite (drop_ge X) by lia. rewrite app_nil_r.
    apply add_both_digits_app_r. rewrite !length_take. lia.
  - rewrite (drop_ge Y n) by lia. rewrite (app_nil_r (take n Y)).
    apply add_both_digits_app_l. rewrite !length_take. lia. }
destruct (add_both_digits_value (take n X) (take n Y) 0)
  as (HD1 & Hlen1 & Hc1 & Hval1);
  [apply Forall_take; assumption | apply Forall_take; assumption
  | rewrite !length_take; lia | lia |].
destruct (add_both_digits (take n X) (take n Y) 0) as [D1 c1].
cbn [fst snd] in *.
set (R := drop (length Y) X ++ drop (length X) Y).
assert (Forall is_digit R) as HR
  by (apply Forall_app; split; apply Forall_drop; assumption).
destruct (add_one_digits_value R c1 HR Hc1) as (HD2 & Hlen2 & Hc2 & Hval2).
destruct (add_one_digits R c1) as [D2 c2]. cbn [fst snd] in *.
assert (length R = Nat.max (length X) (length Y) - n)%nat as HlenR.
{ unfold R. rewrite length_app, !length_drop. lia. }
rewrite length_take in Hlen1.
split; [apply Forall_app; split; assumption|].
split; [rewrite length_app; lia|]. split; [exact Hc2|].
rewrite le_value_app.
assert (le_value X + le_value Y
        = le_value (take n X) + le_value (take n Y)
          + 10 ^ Z.of_nat n * le_value R) as ->.
{ rewrite <- (take_drop n X) at 1. rewrite <- (take_drop n Y) at 1.
  rewrite !le_value_app, !length_take. unfold R.
  destruct (Nat.le_ge_cases (length X) (length Y)) as [Hle|Hle].
  - replace (Nat.min n (length X)) with n by lia.
    replace (Nat.min n (length Y)) with n by lia.
    rewrite (drop_ge X (length Y)), (drop_ge X n) by lia.
    replace n with (length X) by lia. cbn [app le_value]. lia.
  - replace (Nat.min n (length X)) with n by lia.
    replace (Nat.min n (length Y)) with n by lia.
    rewrite (drop_ge Y (length X)), (drop_ge Y n) by lia.
    replace n with (length Y) by lia. rewrite app_nil_r. cbn [le_value]. lia. }
replace (Z.of_nat (Nat.max (length X) (length Y)))
  with (Z.of_nat n + Z.of_nat (length R)) by lia.
rewrite Z.pow_add_r by lia.
rewrite length_take in Hval1.
replace (Nat.min n (length X)) with n in * by lia.
replace (length D1) with n by lia.
set (A := 10 ^ Z.of_nat n) in *. set (B := 10 ^ Z.of_nat (length R)) in *.
assert (le_value R = le_value D2 + B * c2 - c1) as -> by lia.
lia.
Qed.

End AdderValue.

(** * [add_string] as one update of the heap *)

Section AdderHeap.

Lemma add_both_digits_length X : forall Y carry,
  length (fst (add_both_digits X Y carry)) = Nat.min (length X) (length Y).
Proof.
induction X as [|x X IH]; intros [|y Y] carry; try reflexivity.
cbn [add_both_digits length].
specialize (IH Y (Z.quot (char_val x - chr0 + (char_val y - chr0) + carry) 10)).
destruct (add_both_digits X Y _) as [D c]. cbn [fst length] in *. lia.
Qed.

Lemma add_one_digits_length X : forall carry,
  length (fst (add_one_digits X carry)) = length X.
Proof.
induction X as [|x X IH]; intros carry; [reflexivity|].
cbn [add_one_digits length].
specialize (IH (Z.quot (char_val x - chr0 + carry) 10)).
destruct (add_one_digits X _) as [D c]. cbn [fst length] in *. lia.
Qed.

Lemma store_list_app D1 : forall D2 p s,
  store_list p (D1 ++ D2) s
  = store_list (p + Z.of_nat (length D1)) D2 (store_list p D1 s).
Proof.
induction D1 as [|d D1 IH]; intros D2 p s; cbn [app store_list length].
- rewrite Z.add_0_r. reflexivity.
- rewrite IH. f_equal. lia.
Qed.

(** The last two updates of [add_string] extend the digit run. *)
Lemma add_string_result next D c s :
  0 <= c <= 1 ->
  (if c =? 0 then store_list next D s
   else store (next + Z.of_nat (length D)) chr1 (store_list next D s))
  = store_list next (D ++ (if c =? 0 then [] else [chr1])) s.
Proof.
intros Hc. destruct (Z.eqb_spec c 0).
- rewrite app_nil_r. reflexivity.
- rewrite store_list_app. reflexivity.
Qed.

Lemma read_bytes_app s n1 : forall p n2,
  read_bytes s p (n1 + n2)
  = read_bytes s p n1 ++ read_bytes s (p + Z.of_nat n1) n2.
Proof.
induction n1 as [|n1 IH]; intros p n2.
- cbn [Nat.add Z.of_nat]. rewrite Z.add_0_r. reflexivity.
- cbn [Nat.add]. rewrite !read_bytes_S, IH. cbn [app]. do 3 f_equal. lia.
Qed.

End AdderHeap.

Section AdderString.

Lemma drop_longer s x m n :
  (n <= m)%nat ->
  drop n (read_bytes s x m) = read_bytes s (x + Z.of_nat n) (m - n).
Proof.
intros Hle. replace m with (n + (m - n))%nat at 1 by lia.
rewrite read_bytes_app.
rewrite <- (read_bytes_length s x n) at 1. apply drop_app_length.
Qed.

(** Away from its operands [add_string] amounts to three updates of the
    heap: the sum digits from index 0, a '1' at index [max] if a carry is
    left, and a NUL at index [max + 1]. *)
Lemma add_string_eq x y next s :
  strlen s x < 2 ^ 31 - 1 -> strlen s y < 2 ^ 31 - 1 ->
  (forall j j', 0 <= j <= Z.max (strlen s x) (strlen s y) + 1 ->
     (0 <= j' < strlen s x -> next + j <> x + j')
     /\ (0 <= j' < strlen s y -> next + j <> y + j')) ->
  add_string x y next s
  = let D := fst (sum_digits (cstring s x) (cstring s y)) in
    let c := snd (sum_digits (cstring s x) (cstring s y)) in
    let hi := Z.max (strlen s x) (strlen s y) in
    let s1 := store_list next D s in
    store (next + (hi + 1)) NUL
      (if c =? 0 then s1 else store (next + hi) chr1 s1).
Proof.
intros Hm Hn Hdisj.
pose proof (strlen_nonneg s x) as Hm0. pose proof (strlen_nonneg s y) as Hn0.
unfold add_string. rewrite !to_int_id by lia.
set (X := cstring s x). set (Y := cstring s y).
assert (X = read_bytes s x (Z.to_nat (strlen s x))) as HX by reflexivity.
assert (Y = read_bytes s y (Z.to_nat (strlen s y))) as HY by reflexivity.
clearbody X Y.
set (m := strlen s x) in *. set (n := strlen s y) in *.
destruct (Z.geb_spec m n) as [Hge|Hlt].
- rewrite add_both_eq by (intros j j' Hj Hj'; specialize (Hdisj j j'); lia).
  rewrite !Z.add_0_r.
  pose proof (add_both_digits_length (read_bytes s x (Z.to_nat n))
                (read_bytes s y (Z.to_nat n)) 0) as HlenD1.
  rewrite !read_bytes_length in HlenD1.
  destruct (add_both_digits (read_bytes s x (Z.to_nat n))
              (read_bytes s y (Z.to_nat n)) 0) as [D1 c1] eqn:HP.
  cbn [fst snd] in *.
  rewrite add_one_eq by (intros j j' Hj Hj'; specialize (Hdisj (n + j) (n + j')); lia).
  rewrite (read_bytes_ext s (store_list next D1 s)).
  2:{ intros j Hj. rewrite load_store_list.
      destruct (Z.leb_spec next (x + n + j)); [|reflexivity].
      destruct (Z.ltb_spec (x + n + j) (next + Z.of_nat (length D1))); [|reflexivity].
      exfalso. specialize (Hdisj (x + n + j - next) (n + j)). lia. }
  destruct (add_one_digits (read_bytes s (x + n) (Z.to_nat (m - n))) c1)
    as [D2 c2] eqn:HQ.
  assert (sum_digits X Y = (D1 ++ D2, c2)) as ->.
  { unfold sum_digits. subst X Y. rewrite !read_bytes_length.
    rewrite (drop_ge (read_bytes s y (Z.to_nat n))), app_nil_r
      by (rewrite read_bytes_length; lia).
    rewrite drop_longer by lia.
    replace (Z.to_nat m) with (Z.to_nat n + (Z.to_nat m - Z.to_nat n))%nat at 1 by lia.
    rewrite read_bytes_app, add_both_digits_app_l, HP
      by (rewrite !read_bytes_length; reflexivity).
    replace (Z.to_nat m - Z.to_nat n)%nat with (Z.to_nat (m - n)) by lia.
    rewrite Z2Nat.id, HQ by lia. reflexivity. }
  cbn [fst snd]. cbv zeta.
  rewrite store_list_app.
  replace (Z.of_nat (length D1)) with n by lia.
  replace (Z.max m n) with m by lia.
  rewrite to_int_id by lia. reflexivity.
- rewrite add_both_eq by (intros j j' Hj Hj'; specialize (Hdisj j j'); lia).
  rewrite !Z.add_0_r.
  pose proof (add_both_digits_length (read_bytes s x (Z.to_nat m))
                (read_bytes s y (Z.to_nat m)) 0) as HlenD1.
  rewrite !read_bytes_length in HlenD1.
  destruct (add_both_digits (read_bytes s x (Z.to_nat m))
              (read_bytes s y (Z.to_nat m)) 0) as [D1 c1] eqn:HP.
  cbn [fst snd] in *.
  rewrite add_one_eq by (intros j j' Hj Hj'; specialize (Hdisj (m + j) (m + j')); lia).
  rewrite (read_bytes_ext s (store_list next D1 s)).
  2:{ intros j Hj. rewrite load_store_list.
      destruct (Z.leb_spec next (y + m + j)); [|reflexivity].
      destruct (Z.ltb_spec (y + m + j) (next + Z.of_nat (length D1))); [|reflexivity].
      exfalso. specialize (Hdisj (y + m + j - next) (m + j)). lia. }
  destruct (add_one_digits (read_bytes s (y + m) (Z.to_nat (n - m))) c1)
    as [D2 c2] eqn:HQ.
  assert (sum_digits X Y = (D1 ++ D2, c2)) as ->.
  { unfold sum_digits. subst X Y. rewrite !read_bytes_length.
    rewrite (drop_ge (read_bytes s x (Z.to_nat m)))
      by (rewrite read_bytes_length; lia).
    cbn [app]. rewrite drop_longer by lia.
    replace (Z.to_nat n) with (Z.to_nat m + (Z.to_nat n - Z.to_nat m))%nat at 1 by lia.
    rewrite read_bytes_app, add_both_digits_app_r, HP
      by (rewrite !read_bytes_length; reflexivity).
    replace (Z.to_nat n - Z.to_nat m)%nat with (Z.to_nat (n - m)) by lia.
    rewrite Z2Nat.id, HQ by lia. reflexivity. }
  cbn [fst snd]. cbv zeta.
  rewrite store_list_app.
  replace (Z.of_nat (length D1)) with m by lia.
  replace (Z.max m n) with n by lia.
  rewrite to_int_id by lia. reflexivity.
Qed.

End AdderString.

(** * Decimal digit strings *)

Section Decimal.

Lemma le_value_bound l :
  Forall is_digit l -> 0 <= le_value l < 10 ^ Z.of_nat (length l).
Proof.
induction 1 as [|c l Hc _ IH]; cbn [le_value length].
- rewrite Z.pow_0_r. lia.
- rewrite Nat2Z.inj_succ, Z.pow_succ_r by lia.
  unfold is_digit, chr0 in *. lia.
Qed.

(** Digit strings of one length that stand for one number are equal. *)
Lemma le_value_inj l1 : forall l2,
  Forall is_digit l1 -> Forall is_digit l2 -> length l1 = length l2 ->
  le_value l1 = le_value l2 -> l1 = l2.
Proof.
induction l1 as [|c1 l1 IH]; intros [|c2 l2] H1 H2 Hlen Hval;
  try discriminate; [reflexivity|].
inversion H1 as [|? ? Hc1 H1']; inversion H2 as [|? ? Hc2 H2']; subst.
cbn [le_value] in Hval. unfold is_digit, chr0 in *.
assert (c1 = c2) as -> by lia.
f_equal. apply IH; [assumption | assumption | cbn in Hlen; lia | lia].
Qed.

Lemma digits_le_spec f : forall v,
  0 <= v < 10 ^ Z.of_nat (S f) ->
  Forall is_digit (digits_le (S f) v)
  /\ le_value (digits_le (S f) v) = v
  /\ (1 <= length (digits_le (S f) v))%nat
  /\ 10 ^ (Z.of_nat (length (digits_le (S f) v)) - 1) <= Z.max 1 v.
Proof.
induction f as [|f IH]; intros v Hv.
- change (10 ^ Z.of_nat 1) with 10 in Hv. cbn [digits_le].
  destruct (Z.ltb_spec v 10); [|lia]. cbn [le_value length].
  split; [repeat constructor; unfold is_digit, chr0; lia|].
  split; [lia|]. split; [lia|]. cbn. lia.
- remember (S f) as f' eqn:Hf'. cbn [digits_le].
  destruct (Z.ltb_spec v 10) as [Hlt|Hge].
  + cbn [le_value length].
    split; [repeat constructor; unfold is_digit, chr0; lia|].
    split; [lia|]. split; [lia|]. cbn. lia.
  + rewrite Nat2Z.inj_succ, Z.pow_succ_r in Hv by lia.
    pose proof (Z.div_mod v 10 ltac:(lia)) as Hdm.
    pose proof (Z.mod_pos_bound v 10 ltac:(lia)) as Hmod.
    destruct (IH (v / 10)) as (Hd & Hval & Hlen & Hlow); [subst f'; lia|].
    subst f'. cbn [le_value length].
    split; [constructor; [unfold is_digit, chr0; lia | exact Hd]|].
    split; [rewrite Hval; lia|]. split; [lia|].
    rewrite Nat2Z.inj_succ.
    replace (Z.succ (Z.of_nat (length (digits_le (S f) (v / 10)))) - 1)
      with (Z.succ (Z.of_nat (length (digits_le (S f) (v / 10))) - 1)) by lia.
    rewrite Z.pow_succ_r by lia. lia.
Qed.

Lemma decimal_le_spec v :
  0 <= v ->
  Forall is_digit (decimal_le v)
  /\ le_value (decimal_le v) = v
  /\ (1 <= length (decimal_le v))%nat
  /\ 10 ^ (Z.of_nat (length (decimal_le v)) - 1) <= Z.max 1 v.
Proof.
intros Hv. unfold decimal_le. apply digits_le_spec. split; [exact Hv|].
rewrite Nat2Z.inj_succ, Z2Nat.id by apply Z.log2_nonneg.
destruct (Z.eq_dec v 0) as [->|Hne]; [cbn; lia|].
pose proof (Z.log2_spec v ltac:(lia)) as [_ Hhi].
pose proof (Z.log2_nonneg v) as Hlog.
apply Z.lt_le_trans with (2 ^ Z.succ (Z.log2 v)); [exact Hhi|].
apply Z.pow_le_mono_l. lia.
Qed.

(** A digit string with a non-zero top digit is the decimal form of its
    value. *)
Lemma decimal_le_unique l :
  Forall is_digit l -> (1 <= length l)%nat ->
  10 ^ (Z.of_nat (length l) - 1) <= le_value l ->
  l = decimal_le (le_value l).
Proof.
intros Hd Hlen Hlow.
pose proof (le_value_bound l Hd) as Hb.
destruct (decimal_le_spec (le_value l) ltac:(lia)) as (Hd' & Hval' & Hlen' & Hlow').
pose proof (le_value_bound _ Hd') as Hb'. rewrite Hval' in Hb'.
assert (1 <= le_value l) as Hpos.
{ pose proof (Z.pow_pos_nonneg 10 (Z.of_nat (length l) - 1)). lia. }
apply le_value_inj; [assumption | assumption | | symmetry; exact Hval'].
set (n := Z.of_nat (length l)) in *.
set (n' := Z.of_nat (length (decimal_le (le_value l)))) in *.
assert (n - 1 < n') as H1.
{ apply (Z.pow_lt_mono_r_iff 10); lia. }
assert (n' - 1 < n) as H2.
{ apply (Z.pow_lt_mono_r_iff 10); lia. }
unfold n, n' in *. lia.
Qed.

Lemma Fib_S_pos n : 1 <= Fib (S n).
Proof.
induction n as [|n IH]; [rewrite Fib_1; lia|].
rewrite Fib_SS. pose proof (Fib_nonneg n). lia.
Qed.

Lemma Fib_mono_S n : Fib n <= Fib (S n).
Proof.
destruct n as [|n]; [rewrite Fib_0, Fib_1; lia|].
rewrite Fib_SS. pose proof (Fib_nonneg n). lia.
Qed.

Lemma Fib_mono n m : (n <= m)%nat -> Fib n <= Fib m.
Proof.
induction 1 as [|m _ IH]; [lia|]. pose proof (Fib_mono_S m). lia.
Qed.

(** Up to [MAX_LENGTH] a Fibonacci number has at most 105 digits. *)
Lemma decimal_le_Fib_length n :
  (n <= 500)%nat -> (length (decimal_le (Fib n)) <= 105)%nat.
Proof.
intros Hn.
destruct (decimal_le_spec (Fib n) ltac:(apply Fib_nonneg)) as (_ & _ & Hlen & Hlow).
pose proof (Fib_mono n 500 Hn) as Hmono.
assert (Fib 500 < 10 ^ 105) as H500 by (vm_compute; reflexivity).
assert (Z.of_nat (length (decimal_le (Fib n))) - 1 < 105); [|lia].
apply (Z.pow_lt_mono_r_iff 10); lia.
Qed.

End Decimal.

(** * The table on a zeroed block *)

Section Table.

Lemma table_byte_slot i j t :
  0 <= j <= i -> 0 <= t < STRBUF_SIZE ->
  table_byte i (res j + t)
  = nth (Z.to_nat t) (decimal_le (Fib (Z.to_nat j))) 0.
Proof.
intros Hj Ht. unfold table_byte, res, STRBUF_SIZE in *.
rewrite Z.div_add_l, Z.div_small, Z.add_0_r by lia.
rewrite Z.add_comm, Z.mod_add, Z.mod_small by lia.
destruct (Z.leb_spec 0 j); [|lia]. destruct (Z.leb_spec j i); [|lia].
reflexivity.
Qed.

Lemma table_byte_above i j t :
  i < j -> 0 <= t < STRBUF_SIZE -> table_byte i (res j + t) = 0.
Proof.
intros Hj Ht. unfold table_byte, res, STRBUF_SIZE in *.
rewrite Z.div_add_l, Z.div_small, Z.add_0_r by lia.
destruct (Z.leb_spec j i); [lia|]. rewrite andb_false_r. reflexivity.
Qed.

Lemma nth_digit l (t : nat) :
  Forall is_digit l -> (t < length l)%nat -> is_digit (nth t l 0).
Proof.
intros Hd Ht. rewrite Forall_forall in Hd. apply Hd.
apply list_elem_of_In. apply nth_In. exact Ht.
Qed.

Lemma read_bytes_eq s p l :
  (forall t, (t < length l)%nat -> load s (p + Z.of_nat t) = nth t l 0) ->
  read_bytes s p (length l) = l.
Proof.
intros Hl. apply (nth_ext _ _ 0 0); [apply read_bytes_length|].
intros t Ht. rewrite read_bytes_length in Ht.
rewrite read_bytes_nth by exact Ht. apply Hl. exact Ht.
Qed.

(** A filled slot holds the decimal string of its Fibonacci number. *)
Lemma table_slot_string k i j s :
  table_ok k i s -> 0 <= j <= i -> j <= k -> j <= MAX_LENGTH ->
  strlen s (res j) = Z.of_nat (length (decimal_le (Fib (Z.to_nat j))))
  /\ cstring s (res j) = decimal_le (Fib (Z.to_nat j)).
Proof.
intros Hok Hj Hjk Hmax.
set (l := decimal_le (Fib (Z.to_nat j))).
destruct (decimal_le_spec (Fib (Z.to_nat j)) ltac:(apply Fib_nonneg))
  as (Hd & _ & Hlen & _).
pose proof (decimal_le_Fib_length (Z.to_nat j) ltac:(unfold MAX_LENGTH in *; lia))
  as Hlen105.
fold l in Hd, Hlen, Hlen105.
assert (forall t, 0 <= t < STRBUF_SIZE ->
                  load s (res j + t) = nth (Z.to_nat t) l 0) as Hload.
{ intros t Ht. rewrite Hok; [apply table_byte_slot; lia|].
  unfold kmalloc_size, res, STRBUF_SIZE in *. nia. }
assert (strlen s (res j) = Z.of_nat (length l)) as Hstrlen.
{ apply strlen_unique; [lia| |].
  - intros t Ht. rewrite Hload by (unfold STRBUF_SIZE; lia).
    pose proof (nth_digit l (Z.to_nat t) Hd ltac:(lia)) as Hdig.
    unfold is_digit, chr0, NUL in *. lia.
  - rewrite Hload by (unfold STRBUF_SIZE; lia).
    apply nth_overflow. lia. }
split; [exact Hstrlen|].
unfold cstring. rewrite Hstrlen, Nat2Z.id.
apply read_bytes_eq. intros t Ht.
rewrite Hload by (unfold STRBUF_SIZE; lia). rewrite Nat2Z.id. reflexivity.
Qed.

End Table.

Section AdderLength.

Lemma cstring_length s p : Z.of_nat (length (cstring s p)) = strlen s p.
Proof.
unfold cstring. rewrite read_bytes_length.
pose proof (strlen_nonneg s p). lia.
Qed.

Lemma cstring_eq s p l :
  (forall t, (t < length l)%nat -> load s (p + Z.of_nat t) = nth t l 0) ->
  (forall t, (t < length l)%nat -> nth t l 0 <> NUL) ->
  load s (p + Z.of_nat (length l)) = NUL ->
  cstring s p = l.
Proof.
intros Hl Hnz Hend.
assert (strlen s p = Z.of_nat (length l)) as Hlen.
{ apply strlen_unique; [lia| |exact Hend].
  intros j Hj. replace j with (Z.of_nat (Z.to_nat j)) by lia.
  rewrite Hl by lia. apply Hnz. lia. }
unfold cstring. rewrite Hlen, Nat2Z.id. apply read_bytes_eq. exact Hl.
Qed.

(** What [add_string] leaves in the output buffer for two digit strings:
    the digits of the sum; with a final carry a '1' and the terminator, so
    a string of [max + 1] digits; without one, the terminator two places
    on and the byte in between as it was before the call.  Only if that
    byte was already NUL does the string have [max] digits. *)
Lemma add_string_digits x y next s :
  let X := cstring s x in
  let Y := cstring s y in
  let D := fst (sum_digits X Y) in
  let c := snd (sum_digits X Y) in
  let hi := Z.max (strlen s x) (strlen s y) in
  let s' := add_string x y next s in
  Forall is_digit X -> Forall is_digit Y ->
  strlen s x < 2 ^ 31 - 1 -> strlen s y < 2 ^ 31 - 1 ->
  (forall j j', 0 <= j <= hi + 1 ->
     (0 <= j' < strlen s x -> next + j <> x + j')
     /\ (0 <= j' < strlen s y -> next + j <> y + j')) ->
  Z.of_nat (length D) = hi
  /\ le_value D + 10 ^ hi * c = le_value X + le_value Y
  /\ (c = 1 -> cstring s' next = D ++ [chr1])
  /\ (c = 0 -> load s' (next + hi) = load s (next + hi))
  /\ (c = 0 -> load s (next + hi) = NUL -> cstring s' next = D)
  /\ (c = 0 -> load s (next + hi) <> NUL ->
      strlen s' next = hi + 1).
Proof.
intros X Y D c hi s' HX HY Hm Hn Hdisj.
destruct (sum_digits_value X Y HX HY) as (HD & HlenD & Hc & Hval).
fold D c in HD, HlenD, Hc, Hval.
assert (Z.of_nat (length D) = hi) as Hhi.
{ rewrite HlenD, Nat2Z.inj_max. unfold hi, X, Y. rewrite !cstring_length.
  reflexivity. }
assert (Z.of_nat (Nat.max (length X) (length Y)) = hi) as Hmax.
{ rewrite Nat2Z.inj_max. unfold hi, X, Y. rewrite !cstring_length. reflexivity. }
rewrite Hmax in Hval.
assert (s' = store (next + (hi + 1)) NUL
               (store_list next (D ++ (if c =? 0 then [] else [chr1])) s))
  as Hs'.
{ unfold s'. rewrite add_string_eq by assumption. cbv zeta.
  fold X Y D c hi. rewrite <- add_string_result by exact Hc.
  rewrite Hhi. reflexivity. }
assert (forall t, (t < length D)%nat ->
                  load s' (next + Z.of_nat t) = nth t D 0) as HloadD.
{ intros t Ht. rewrite Hs', load_store_ne, load_store_list by lia.
  rewrite length_app.
  destruct (Z.leb_spec next (next + Z.of_nat t)); [|lia].
  destruct (Z.ltb_spec (next + Z.of_nat t)
              (next + Z.of_nat (length D + length (if c =? 0 then [] else [chr1]))));
    [|lia].
  cbn [andb]. replace (Z.to_nat (next + Z.of_nat t - next)) with t by lia.
  rewrite app_nth1 by exact Ht. apply to_char_id.
  pose proof (nth_digit D t HD Ht) as Hdig. unfold is_digit, chr0 in Hdig. lia. }
assert (forall t, (t < length D)%nat -> nth t D 0 <> NUL) as HnzD.
{ intros t Ht. pose proof (nth_digit D t HD Ht) as Hdig.
  unfold is_digit, chr0, NUL in *. lia. }
assert (load s' (next + (hi + 1)) = NUL) as Hterm
  by (rewrite Hs'; apply load_store_eq).
split; [exact Hhi|]. split; [exact Hval|]. split; [|split; [|split]].
- intros Hc1. apply cstring_eq.
  + intros t Ht. rewrite length_app in Ht. cbn [length] in Ht.
    destruct (Nat.eq_dec t (length D)) as [->|Hne].
    * rewrite app_nth2, Nat.sub_diag by lia. cbn [nth].
      rewrite Hs', load_store_ne, load_store_list, Hc1 by lia.
      cbn [Z.eqb]. rewrite length_app. cbn [length].
      destruct (Z.leb_spec next (next + Z.of_nat (length D))); [|lia].
      destruct (Z.ltb_spec (next + Z.of_nat (length D))
                  (next + Z.of_nat (length D + 1))); [|lia].
      cbn [andb].
      replace (Z.to_nat (next + Z.of_nat (length D) - next)) with (length D) by lia.
      rewrite app_nth2, Nat.sub_diag by lia. reflexivity.
    * rewrite app_nth1 by lia. apply HloadD. lia.
  + intros t Ht. rewrite length_app in Ht. cbn [length] in Ht.
    destruct (Nat.eq_dec t (length D)) as [->|Hne].
    * rewrite app_nth2, Nat.sub_diag by lia. discriminate.
    * rewrite app_nth1 by lia. apply HnzD. lia.
  + rewrite length_app. cbn [length]. rewrite <- Hterm. f_equal. lia.
- intros Hc0. rewrite Hs', load_store_ne, load_store_list, Hc0 by lia.
  cbn [Z.eqb]. rewrite app_nil_r.
  destruct (Z.ltb_spec (next + hi) (next + Z.of_nat (length D))); [lia|].
  rewrite andb_false_r. reflexivity.
- intros Hc0 Hz. apply cstring_eq; [exact HloadD | exact HnzD |].
  rewrite Hhi. rewrite Hs', load_store_ne, load_store_list, Hc0 by lia.
  cbn [Z.eqb]. rewrite app_nil_r.
  destruct (Z.ltb_spec (next + hi) (next + Z.of_nat (length D))); [lia|].
  rewrite andb_false_r. exact Hz.
- intros Hc0 Hnz. apply strlen_unique; [lia| |exact Hterm].
  intros j Hj. destruct (Z.eq_dec j hi) as [->|Hne].
  + rewrite Hs', load_store_ne, load_store_list, Hc0 by lia.
    cbn [Z.eqb]. rewrite app_nil_r.
    destruct (Z.ltb_spec (next + hi) (next + Z.of_nat (length D))); [lia|].
    rewrite andb_false_r. exact Hnz.
  + replace j with (Z.of_nat (Z.to_nat j)) by lia.
    rewrite HloadD by lia. apply HnzD. lia.
Qed.

End AdderLength.

Section TableStep.

Lemma table_byte_next i a :
  0 <= i ->
  table_byte i a
  = if a / STRBUF_SIZE =? i
    then nth (Z.to_nat (a mod STRBUF_SIZE)) (decimal_le (Fib (Z.to_nat i))) 0
    else table_byte (i - 1) a.
Proof.
intros Hi. unfold table_byte.
destruct (Z.eqb_spec (a / STRBUF_SIZE) i) as [->|Hne].
- destruct (Z.leb_spec 0 i); [|lia]. rewrite Z.leb_refl. reflexivity.
- destruct (Z.leb_spec (a / STRBUF_SIZE) i),
           (Z.leb_spec (a / STRBUF_SIZE) (i - 1)); try lia; reflexivity.
Qed.

Lemma Fib_Z_step i :
  2 <= i ->
  Fib (Z.to_nat i) = Fib (Z.to_nat (i - 1)) + Fib (Z.to_nat (i - 2)).
Proof.
intros Hi.
replace (Z.to_nat i) with (S (S (Z.to_nat (i - 2)))) by lia.
replace (Z.to_nat (i - 1)) with (S (Z.to_nat (i - 2))) by lia.
rewrite Fib_SS. lia.
Qed.

(** The digits the adder leaves, with the carry digit if there is one, are
    the decimal string of the next Fibonacci number. *)
Lemma sum_digits_Fib i :
  2 <= i ->
  let X := decimal_le (Fib (Z.to_nat (i - 1))) in
  let Y := decimal_le (Fib (Z.to_nat (i - 2))) in
  fst (sum_digits X Y) ++ (if snd (sum_digits X Y) =? 0 then [] else [chr1])
  = decimal_le (Fib (Z.to_nat i)).
Proof.
intros Hi X Y.
destruct (decimal_le_spec (Fib (Z.to_nat (i - 1))) ltac:(apply Fib_nonneg))
  as (HdX & HvX & HlX & HlowX).
destruct (decimal_le_spec (Fib (Z.to_nat (i - 2))) ltac:(apply Fib_nonneg))
  as (HdY & HvY & HlY & HlowY).
fold X in HdX, HvX, HlX, HlowX. fold Y in HdY, HvY, HlY, HlowY.
destruct (sum_digits_value X Y HdX HdY) as (HD & HlenD & Hc & Hval).
rewrite HvX, HvY, <- Fib_Z_step in Hval by exact Hi.
pose proof (proj1 (Fib_nonneg (Z.to_nat (i - 2)))) as HF2.
assert (1 <= Fib (Z.to_nat (i - 1))) as HF1.
{ replace (Z.to_nat (i - 1)) with (S (Z.to_nat (i - 2))) by lia. apply Fib_S_pos. }
assert (Fib (Z.to_nat (i - 1)) <= Fib (Z.to_nat i)
        /\ Fib (Z.to_nat (i - 2)) <= Fib (Z.to_nat i)) as [Hle1 Hle2].
{ rewrite (Fib_Z_step i Hi). lia. }
destruct (sum_digits X Y) as [D c]. cbn [fst snd] in *.
set (hi := Nat.max (length X) (length Y)) in *.
assert (10 ^ (Z.of_nat hi - 1) <= Fib (Z.to_nat i)) as Hlow.
{ destruct (Nat.max_spec (length X) (length Y)) as [[_ Hmax]|[_ Hmax]];
    fold hi in Hmax; rewrite Hmax; lia. }
set (R := D ++ (if c =? 0 then [] else [chr1])).
assert (le_value R = Fib (Z.to_nat i) /\ Forall is_digit R
        /\ (1 <= length R)%nat
        /\ 10 ^ (Z.of_nat (length R) - 1) <= Fib (Z.to_nat i))
  as (HvR & HdR & HlR & HlowR).
{ unfold R. destruct (Z.eqb_spec c 0) as [->|Hc1].
  - rewrite app_nil_r. rewrite Z.mul_0_r, Z.add_0_r in Hval.
    split; [exact Hval|]. split; [exact HD|]. split; [lia|].
    rewrite HlenD. exact Hlow.
  - assert (c = 1) as -> by lia.
    rewrite le_value_app, length_app, HlenD. cbn [le_value length].
    unfold chr1, chr0. split; [lia|].
    split; [apply Forall_app; split;
            [exact HD | repeat constructor; unfold is_digit, chr0; lia]|].
    split; [lia|].
    replace (Z.of_nat (hi + 1) - 1) with (Z.of_nat hi) by lia.
    pose proof (le_value_bound D HD). lia. }
rewrite <- HvR. apply decimal_le_unique; [exact HdR | exact HlR |].
rewrite HvR. exact HlowR.
Qed.

End TableStep.

Section TableLoop.

(** One pass of the table loop on a zeroed block. *)
Lemma slot_ordered_app i new : forall old,
  (forall a, In a new -> res i <= a < res i + STRBUF_SIZE) ->
  (forall a, In a old -> 0 <= a < res i) ->
  slot_ordered old -> slot_ordered (new ++ old).
Proof.
induction new as [|a new IH]; intros old Hnew Hold Hord; [exact Hord|].
cbn [app slot_ordered]. split.
- intros b Hb.
  assert (slot_of a = i) as ->.
  { specialize (Hnew a ltac:(left; reflexivity)).
    unfold slot_of, res, STRBUF_SIZE in *.
    replace a with (i * 128 + (a - i * 128)) by lia.
    rewrite Z.div_add_l, Z.div_small by lia. lia. }
  apply in_app_or in Hb. destruct Hb as [Hb|Hb].
  + specialize (Hnew b ltac:(right; exact Hb)).
    unfold slot_of, res, STRBUF_SIZE in *.
    replace b with (i * 128 + (b - i * 128)) by lia.
    rewrite Z.div_add_l, Z.div_small by lia. lia.
  + specialize (Hold b Hb). unfold slot_of, res, STRBUF_SIZE in *.
    assert (b / 128 < i); [|lia]. apply Z.div_lt_upper_bound; lia.
- apply IH; [intros b Hb; apply Hnew; right; exact Hb | exact Hold | exact Hord].
Qed.

Lemma table_step k i s :
  2 <= i <= k -> k <= MAX_LENGTH ->
  table_ok k (i - 1) s -> writes_below (res i) s -> slot_ordered (wlog s) ->
  table_ok k i (add_string (res (i - 1)) (res (i - 2)) (res i) s)
  /\ writes_below (res (i + 1))
       (add_string (res (i - 1)) (res (i - 2)) (res i) s)
  /\ slot_ordered (wlog (add_string (res (i - 1)) (res (i - 2)) (res i) s)).
Proof.
intros Hi Hk Hok Hlog Hord.
destruct (table_slot_string k (i - 1) (i - 1) s Hok) as [Hm HX]; try lia.
destruct (table_slot_string k (i - 1) (i - 2) s Hok) as [Hn HY]; try lia.
pose proof (decimal_le_Fib_length (Z.to_nat (i - 1))
              ltac:(unfold MAX_LENGTH in *; lia)) as HlX.
pose proof (decimal_le_Fib_length (Z.to_nat (i - 2))
              ltac:(unfold MAX_LENGTH in *; lia)) as HlY.
pose proof (decimal_le_Fib_length (Z.to_nat i)
              ltac:(unfold MAX_LENGTH in *; lia)) as HlR.
pose proof (sum_digits_Fib i ltac:(lia)) as HR. cbv zeta in HR.
destruct (decimal_le_spec (Fib (Z.to_nat i)) ltac:(apply Fib_nonneg))
  as (HdR & _ & _ & _).
destruct (decimal_le_spec (Fib (Z.to_nat (i - 1))) ltac:(apply Fib_nonneg))
  as (HdX & _ & _ & _).
destruct (decimal_le_spec (Fib (Z.to_nat (i - 2))) ltac:(apply Fib_nonneg))
  as (HdY & _ & _ & _).
rewrite add_string_eq.
2:{ rewrite Hm. lia. }
2:{ rewrite Hn. lia. }
2:{ intros j j' Hj. rewrite Hm, Hn. unfold res, STRBUF_SIZE. lia. }
cbv zeta. rewrite HX, HY, Hm, Hn.
set (X := decimal_le (Fib (Z.to_nat (i - 1)))) in *.
set (Y := decimal_le (Fib (Z.to_nat (i - 2)))) in *.
destruct (sum_digits_value X Y HdX HdY) as (HD & HlenD & Hc & _).
destruct (sum_digits X Y) as [D c]. cbn [fst snd] in *.
rewrite <- Nat2Z.inj_max, <- HlenD.
rewrite add_string_result by exact Hc. rewrite HR.
set (R := decimal_le (Fib (Z.to_nat i))) in *.
assert (length D <= length R <= length D + 1)%nat as HDR.
{ rewrite <- HR, length_app. destruct (c =? 0); cbn [length]; lia. }
set (s' := store _ NUL _).
assert (forall a, 0 <= a < kmalloc_size k ->
          load s' a
          = if (res i <=? a) && (a <? res i + STRBUF_SIZE)
            then nth (Z.to_nat (a - res i)) R 0
            else load s a) as Hload.
{ intros a Ha. unfold s'.
  destruct (Z.eq_dec a (res i + (Z.of_nat (length D) + 1))) as [->|Hne].
  - rewrite load_store_eq.
    destruct (Z.leb_spec (res i) (res i + (Z.of_nat (length D) + 1))); [|lia].
    destruct (Z.ltb_spec (res i + (Z.of_nat (length D) + 1)) (res i + STRBUF_SIZE));
      [|unfold STRBUF_SIZE in *; lia].
    cbn [andb]. rewrite nth_overflow by lia. reflexivity.
  - rewrite load_store_ne by congruence. rewrite load_store_list.
    destruct (Z.leb_spec (res i) a) as [Hlo|]; [|reflexivity].
    destruct (Z.ltb_spec a (res i + Z.of_nat (length R))) as [Hin|Hout];
      cbn [andb].
    + destruct (Z.ltb_spec a (res i + STRBUF_SIZE));
        [|unfold STRBUF_SIZE in *; lia].
      apply to_char_id.
      pose proof (nth_digit R (Z.to_nat (a - res i)) HdR ltac:(lia)) as Hdig.
      unfold is_digit, chr0 in Hdig. lia.
    + destruct (Z.ltb_spec a (res i + STRBUF_SIZE)) as [Hslot|]; [|reflexivity].
      rewrite nth_overflow by lia. rewrite Hok by exact Ha.
      replace a with (res i + (a - res i)) by lia.
      apply table_byte_above; lia. }
split.
- intros a Ha. rewrite Hload by exact Ha. rewrite table_byte_next by lia.
  pose proof (Z.div_mod a STRBUF_SIZE ltac:(unfold STRBUF_SIZE; lia)) as Hdm.
  pose proof (Z.mod_pos_bound a STRBUF_SIZE ltac:(unfold STRBUF_SIZE; lia)) as Hmod.
  destruct (Z.eqb_spec (a / STRBUF_SIZE) i) as [Hslot|Hslot].
  + rewrite Hslot in Hdm.
    destruct (Z.leb_spec (res i) a); [|unfold res in *; lia].
    destruct (Z.ltb_spec a (res i + STRBUF_SIZE)); [|unfold res in *; lia].
    cbn [andb]. do 2 f_equal. unfold res. lia.
  + destruct (Z.leb_spec (res i) a); [|apply Hok; exact Ha].
    destruct (Z.ltb_spec a (res i + STRBUF_SIZE)); [|apply Hok; exact Ha].
    exfalso. apply Hslot. unfold res, STRBUF_SIZE in *.
    replace a with (i * 128 + (a - i * 128)) by lia.
    rewrite Z.div_add_l, Z.div_small by lia. lia.
- assert (exists new, wlog s' = new ++ wlog s
                      /\ forall a, In a new -> res i <= a < res i + STRBUF_SIZE)
    as (new & Hnew & Hin).
  { unfold s'. cbn [wlog store]. rewrite wlog_store_list.
    exists ((res i + (Z.of_nat (length D) + 1))
            :: rev (map (fun j => res i + Z.of_nat j) (seq 0 (length R)))).
    split; [reflexivity|]. intros a [<-|Ha]; [unfold STRBUF_SIZE; lia|].
    apply in_rev, in_map_iff in Ha. destruct Ha as (j & <- & Hj).
    apply in_seq in Hj. unfold STRBUF_SIZE. lia. }
  unfold writes_below. rewrite Hnew. split.
  + intros a Ha. apply in_app_or in Ha. destruct Ha as [Ha|Ha].
    * specialize (Hin a Ha). unfold res, STRBUF_SIZE in *. lia.
    * specialize (Hlog a Ha). unfold res, STRBUF_SIZE in *. lia.
  + apply (slot_ordered_app i); assumption.
Qed.

Lemma fib_table_loop_ok k (n : nat) : forall i s,
  2 <= i -> i + Z.of_nat n = k + 1 -> k <= MAX_LENGTH ->
  table_ok k (i - 1) s -> writes_below (res i) s -> slot_ordered (wlog s) ->
  table_ok k k (fib_table_loop n i s)
  /\ writes_below (res (k + 1)) (fib_table_loop n i s)
  /\ slot_ordered (wlog (fib_table_loop n i s)).
Proof.
induction n as [|n IH]; intros i s Hi Hn Hk Hok Hlog Hord; cbn [fib_table_loop].
- replace k with (i - 1) at 2 by lia. replace (k + 1) with i by lia.
  split; [|split]; assumption.
- destruct (table_step k i s) as (Hok' & Hlog' & Hord'); try assumption; [lia|].
  apply IH; try assumption; try lia.
  replace (i + 1 - 1) with i by lia. exact Hok'.
Qed.

End TableLoop.

Section TableResult.

Lemma table_seed k h :
  0 <= k -> zeroed_block k h ->
  let s := strncpy (res 1) [chr1] 2 (strncpy (res 0) [chr0] 2 (kmalloc h)) in
  table_ok k (Z.min k 1) s
  /\ writes_below (res 2) s /\ slot_ordered (wlog s).
Proof.
intros Hk Hzero s.
assert (s = store 129 NUL (store 128 chr1 (store 1 NUL (store 0 chr0 (kmalloc h)))))
  as -> by reflexivity.
split.
- intros a Ha.
  destruct (Z.eq_dec a 129) as [->|H129].
  { rewrite load_store_eq. destruct (Z.min_spec k 1) as [[? ->]|[? ->]].
    - unfold kmalloc_size, STRBUF_SIZE in Ha. lia.
    - reflexivity. }
  rewrite load_store_ne by congruence.
  destruct (Z.eq_dec a 128) as [->|H128].
  { rewrite load_store_eq. destruct (Z.min_spec k 1) as [[? ->]|[? ->]].
    - unfold kmalloc_size, STRBUF_SIZE in Ha. lia.
    - reflexivity. }
  rewrite load_store_ne by congruence.
  destruct (Z.eq_dec a 1) as [->|H1].
  { rewrite load_store_eq. destruct (Z.min_spec k 1) as [[? ->]|[? ->]].
    - assert (k = 0) as -> by lia. reflexivity.
    - reflexivity. }
  rewrite load_store_ne by congruence.
  destruct (Z.eq_dec a 0) as [->|H0].
  { rewrite load_store_eq. destruct (Z.min_spec k 1) as [[? ->]|[? ->]].
    - assert (k = 0) as -> by lia. reflexivity.
    - reflexivity. }
  rewrite load_store_ne by congruence.
  rewrite Hzero by exact Ha. symmetry.
  pose proof (Z.div_mod a STRBUF_SIZE ltac:(unfold STRBUF_SIZE; lia)) as Hdm.
  pose proof (Z.mod_pos_bound a STRBUF_SIZE ltac:(unfold STRBUF_SIZE; lia)) as Hmod.
  unfold table_byte.
  destruct (Z.leb_spec 0 (a / STRBUF_SIZE)) as [Hlo|]; [|reflexivity].
  destruct (Z.leb_spec (a / STRBUF_SIZE) (Z.min k 1)) as [Hhi|]; [|reflexivity].
  cbn [andb].
  assert (a / STRBUF_SIZE = 0 \/ a / STRBUF_SIZE = 1) as [Hq|Hq] by lia;
    rewrite Hq in *; unfold STRBUF_SIZE in *.
  + change (decimal_le (Fib (Z.to_nat 0))) with [chr0].
    apply nth_overflow. cbn [length]. lia.
  + change (decimal_le (Fib (Z.to_nat 1))) with [chr1].
    apply nth_overflow. cbn [length]. lia.
- split.
  + intros a Ha. cbn [wlog store kmalloc In] in Ha.
    unfold res, STRBUF_SIZE. lia.
  + cbn [wlog store kmalloc slot_ordered In]. unfold slot_of, STRBUF_SIZE.
    repeat split; intros b Hb;
      repeat (destruct Hb as [<-|Hb]; [vm_compute; discriminate|]);
      contradiction.
Qed.

(** The table builder on a zeroed block: every slot holds the decimal
    string of its Fibonacci number, so every entry from 2 on is the exact
    sum of the two before it; all writes stay in the block and go slot by
    slot in increasing order. *)
Lemma fib_table_zeroed_block k h :
  1 <= k <= MAX_LENGTH -> zeroed_block k h ->
  let s := fib_table k (kmalloc h) in
  table_ok k k s
  /\ (forall i, 0 <= i <= k ->
        cstring s (res i) = decimal_le (Fib (Z.to_nat i)))
  /\ (forall i, 2 <= i <= k ->
        le_value (cstring s (res i))
        = le_value (cstring s (res (i - 1)))
          + le_value (cstring s (res (i - 2))))
  /\ writes_in_block k s
  /\ slot_ordered (wlog s).
Proof.
intros Hk Hzero.
destruct (table_seed k h ltac:(lia) Hzero) as (Hseed & Hseedlog & Hseedord).
cbv zeta in *. unfold fib_table.
set (s1 := strncpy (res 1) [chr1] 2 (strncpy (res 0) [chr0] 2 (kmalloc h))) in *.
assert (table_ok k k (fib_table_loop (Z.to_nat (k - 1)) 2 s1)
        /\ writes_below (res (k + 1)) (fib_table_loop (Z.to_nat (k - 1)) 2 s1)
        /\ slot_ordered (wlog (fib_table_loop (Z.to_nat (k - 1)) 2 s1)))
  as (Hok & Hlog & Hord).
{ destruct (Z.le_gt_cases k 1) as [Hsmall|Hbig].
  - assert (k = 1) as -> by lia. cbn [Z.to_nat Z.sub Z.add Z.opp Z.pos_sub fib_table_loop].
    split; [exact Hseed|]. split; assumption.
  - replace (Z.min k 1) with (2 - 1) in Hseed by lia.
    apply fib_table_loop_ok; try assumption; lia. }
set (s := fib_table_loop (Z.to_nat (k - 1)) 2 s1) in *.
assert (forall i, 0 <= i <= k ->
          cstring s (res i) = decimal_le (Fib (Z.to_nat i))) as Hstr.
{ intros i Hi. apply (table_slot_string k k i s Hok); lia. }
split; [exact Hok|]. split; [exact Hstr|]. split; [|split; [|exact Hord]].
- intros i Hi. rewrite !Hstr by lia.
  destruct (decimal_le_spec (Fib (Z.to_nat i)) ltac:(apply Fib_nonneg))
    as (_ & -> & _).
  destruct (decimal_le_spec (Fib (Z.to_nat (i - 1))) ltac:(apply Fib_nonneg))
    as (_ & -> & _).
  destruct (decimal_le_spec (Fib (Z.to_nat (i - 2))) ltac:(apply Fib_nonneg))
    as (_ & -> & _).
  apply Fib_Z_step. lia.
- intros a Ha. specialize (Hlog a Ha).
  unfold kmalloc_size, res, STRBUF_SIZE in *. lia.
Qed.

(** The writes of the formatter stay inside the buffer it is given. *)
Lemma reverse_loop_writes str size : 0 <= size < 2 ^ 31 ->
  forall (fuel : nat) i s a,
    0 <= i -> 2 * i <= size + 1 ->
    In a (wlog (reverse_loop fuel str size i s)) ->
    str <= a <= str + size \/ In a (wlog s).
Proof.
intros Hsize fuel.
induction fuel as [|fuel IH]; intros i s a Hi Hi2 Ha; cbn [reverse_loop] in Ha.
- right. exact Ha.
- rewrite (to_u64_id i), (to_u64_id (size - i)), (to_int_id (i + 1)) in Ha by lia.
  destruct (Z.ltb_spec i (size - i)) as [Hlt|Hge]; [|right; exact Ha].
  apply IH in Ha; [|lia|lia].
  destruct Ha as [Ha|Ha]; [left; exact Ha|].
  rewrite xor_swap_wlog in Ha. cbn [app In] in Ha.
  destruct Ha as [<-|[<-|[<-|Ha]]]; (left; lia) || (right; exact Ha).
Qed.

Lemma writes_in_block_oob k s : writes_in_block k s -> oob_writes k s = [].
Proof.
unfold writes_in_block, oob_writes. induction (wlog s) as [|a l IH]; intros Hin.
- reflexivity.
- rewrite filter_cons_False.
  + apply IH. intros b Hb. apply Hin. right. exact Hb.
  + specialize (Hin a ltac:(left; reflexivity)). unfold in_block.
    destruct (Z.leb_spec 0 a), (Z.ltb_spec a (kmalloc_size k));
      cbn [andb]; first [lia | discriminate].
Qed.

(** On a block that is all zero when [kmalloc] hands it out, every index up
    to [MAX_LENGTH] yields the decimal string of [F(k)], most significant
    digit first, with its terminator and its length; from index 1 on no
    write leaves the block. *)
Theorem fib_read_zeroed_block k h :
  0 <= k <= MAX_LENGTH -> zeroed_block k h ->
  copied (fib_read k h) = decimal (Fib (Z.to_nat k)) ++ [NUL]
  /\ retval (fib_read k h) = Z.of_nat (length (decimal (Fib (Z.to_nat k))))
  /\ (1 <= k -> oob_writes k (after (fib_read k h)) = []).
Proof.
intros Hk Hzero.
assert (table_ok k k (fib_table k (kmalloc h))
        /\ (1 <= k -> writes_in_block k (fib_table k (kmalloc h))))
  as [Hok Hlog].
{ destruct (Z.eq_dec k 0) as [->|Hk0].
  - destruct (table_seed 0 h ltac:(lia) Hzero) as (Hseed & _).
    split; [exact Hseed | lia].
  - destruct (fib_table_zeroed_block k h ltac:(lia) Hzero)
      as (H1 & _ & _ & H2 & _).
    split; [exact H1 | intros _; exact H2]. }
unfold fib_read, fib_sequence_string.
set (s := fib_table k (kmalloc h)) in *.
destruct (table_slot_string k k k s Hok) as [Hlen Hstr]; try lia.
set (R := decimal_le (Fib (Z.to_nat k))) in *.
pose proof (decimal_le_Fib_length (Z.to_nat k)
              ltac:(unfold MAX_LENGTH in *; lia)) as HlR.
destruct (decimal_le_spec (Fib (Z.to_nat k)) ltac:(apply Fib_nonneg))
  as (HdR & _ & HlR1 & _).
fold R in HlR, HdR, HlR1.
assert (forall t, 0 <= t < STRBUF_SIZE ->
                  load s (res k + t) = nth (Z.to_nat t) R 0) as Hload.
{ intros t Ht. rewrite Hok; [apply table_byte_slot; lia|].
  unfold kmalloc_size, res, STRBUF_SIZE in *. nia. }
cbn [copied retval after]. rewrite Hlen.
unfold reverse_string. rewrite to_u64_id by lia.
destruct (reverse_loop_spec (res k) (Z.of_nat (length R) - 1) ltac:(lia)
            (Z.to_nat (Z.of_nat (length R) - 1)) 0 s)
  as (Hrev & Hsame); [lia|lia|lia| |].
{ intros j Hj. rewrite Hload by (unfold STRBUF_SIZE; lia).
  pose proof (nth_digit R (Z.to_nat j) HdR ltac:(lia)) as Hdig.
  unfold is_digit, chr0 in Hdig. lia. }
set (s' := reverse_loop _ (res k) _ 0 s) in *.
unfold decimal. fold R. rewrite length_rev.
split; [|split; [reflexivity|]].
- replace (Z.to_nat (Z.of_nat (length R) + 1)) with (length (rev R ++ [NUL]))
    by (rewrite length_app, length_rev; cbn [length]; lia).
  apply read_bytes_eq. intros t Ht.
  rewrite length_app, length_rev in Ht. cbn [length] in Ht.
  destruct (Nat.eq_dec t (length R)) as [->|Hne].
  + rewrite Hsame by lia. rewrite Hload by (unfold STRBUF_SIZE; lia).
    rewrite Nat2Z.id, nth_overflow by lia.
    rewrite app_nth2, length_rev, Nat.sub_diag by (rewrite length_rev; lia).
    reflexivity.
  + rewrite app_nth1 by (rewrite length_rev; lia).
    rewrite rev_nth by lia.
    rewrite Hrev, Hload by (unfold STRBUF_SIZE; lia). f_equal. lia.
- intros Hk1. apply writes_in_block_oob. intros a Ha.
  unfold s' in Ha.
  apply (reverse_loop_writes (res k) (Z.of_nat (length R) - 1) ltac:(lia)) in Ha;
    [|lia|lia].
  destruct Ha as [Ha|Ha]; [|apply Hlog; assumption].
  unfold kmalloc_size, res, STRBUF_SIZE in *. lia.
Qed.

End TableResult.

(** * The decimal engine on concrete heaps *)

(** On a heap that happens to be zero the sample values of the
    specification come out, each with its digit count. *)
Lemma fib_read_zero_heap_samples :
  observe 1 (fib_read 1 zero_heap) = (ascii_bytes "1" ++ [NUL], 1, [])
  /\ observe 2 (fib_read 2 zero_heap) = (ascii_bytes "1" ++ [NUL], 1, [])
  /\ observe 10 (fib_read 10 zero_heap) = (ascii_bytes "55" ++ [NUL], 2, [])
  /\ observe 20 (fib_read 20 zero_heap) = (ascii_bytes "6765" ++ [NUL], 4, [])
  /\ observe 100 (fib_read 100 zero_heap)
     = (ascii_bytes "354224848179261915075" ++ [NUL], 21, [])
  /\ decimal (Fib 100) = ascii_bytes "354224848179261915075".
Proof. vm_compute. repeat split. Qed.

(** C1, at the failing input.  Index 2 on a heap whose byte at
    [res[2].fib[1]] is '7': [add_string] leaves that byte in place and puts
    the terminator behind it, so the call copies out "71" and returns 2,
    where [F(2)] is "1" with one digit. *)
Theorem fib_sequence_string_stale_digit :
  observe 2 (fib_read 2 stale_heap) = (ascii_bytes "71" ++ [NUL], 2, [])
  /\ decimal (Fib 2) = ascii_bytes "1"
  /\ copied (fib_read 2 stale_heap) <> decimal (Fib 2) ++ [NUL]
  /\ retval (fib_read 2 stale_heap) <> Z.of_nat (length (decimal (Fib 2))).
Proof. vm_compute. repeat split; discriminate. Qed.

(** C2, at the failing input.  "1" plus "0" gives no final carry and the
    longer operand has one digit, yet the string left in the output buffer
    has two bytes: the sum digit and the stale byte, which [add_string]
    never overwrites because the terminator goes to index [max + 1]. *)
Theorem add_string_stale_terminator :
  let s := kmalloc adder_heap in
  cstring s 0 = ascii_bytes "1"
  /\ cstring s 128 = ascii_bytes "0"
  /\ cstring (add_string 0 128 256 s) 256 = ascii_bytes "17"
  /\ wlog (add_string 0 128 256 s) = [258; 256]
  /\ Z.of_nat (length (cstring (add_string 0 128 256 s) 256))
     <> Z.max (strlen s 0) (strlen s 128).
Proof. vm_compute. repeat split; discriminate. Qed.

(** C3, at the failing input.  With the stale byte in slot 2 the entry the
    table builder produces for index 2 reads "17", little-endian for 71,
    while entries 1 and 0 are "1" and "0". *)
Theorem fib_table_stale_entry :
  let s := fib_table 2 (kmalloc stale_heap) in
  cstring s (res 0) = ascii_bytes "0"
  /\ cstring s (res 1) = ascii_bytes "1"
  /\ cstring s (res 2) = ascii_bytes "17"
  /\ le_value (cstring s (res 2))
     <> le_value (cstring s (res 1)) + le_value (cstring s (res 0)).
Proof. vm_compute. repeat split; discriminate. Qed.

(** C10, at the failing input.  The same index on two heaps, one zero and
    one with a stale byte, gives two different answers. *)
Theorem fib_sequence_string_depends_on_heap :
  observe 2 (fib_read 2 zero_heap) = (ascii_bytes "1" ++ [NUL], 1, [])
  /\ observe 2 (fib_read 2 stale_heap) = (ascii_bytes "71" ++ [NUL], 2, [])
  /\ copied (fib_read 2 zero_heap) <> copied (fib_read 2 stale_heap)
  /\ retval (fib_read 2 zero_heap) <> retval (fib_read 2 stale_heap).
Proof. vm_compute. repeat split; discriminate. Qed.

(** C8, at the failing input.  For [k = 0] the block asked from [kmalloc]
    is one slot of 128 bytes, and from every heap the call still seeds slot
    1: its writes include the addresses 128 and 129, past the end of the
    block.  The bytes handed to the caller are "0", with length 1. *)
Theorem fib_sequence_string_zero_writes_past_block (h : gmap Z Z) :
  kmalloc_size 0 = 128
  /\ In 128 (wlog (after (fib_read 0 h)))
  /\ In 129 (wlog (after (fib_read 0 h)))
  /\ in_block 0 128 = false /\ in_block 0 129 = false
  /\ observe 0 (fib_read 0 zero_heap) = (ascii_bytes "0" ++ [NUL], 1, [129; 128])
  /\ wlog (after (fib_read 0 zero_heap)) = [129; 128; 1; 0].
Proof.
split; [reflexivity|].
unfold fib_read, fib_sequence_string. cbn [after].
destruct (reverse_loop_wlog
            (Z.to_nat (to_u64 (strlen (fib_table 0 (kmalloc h)) (res 0) - 1)))
            (res 0) (to_u64 (strlen (fib_table 0 (kmalloc h)) (res 0) - 1)) 0
            (fib_table 0 (kmalloc h))) as [l Hl].
unfold reverse_string. rewrite Hl.
change (wlog (fib_table 0 (kmalloc h))) with [129; 128; 1; 0].
split; [apply in_or_app; right; cbn [In]; auto|].
split; [apply in_or_app; right; cbn [In]; auto|].
vm_compute. repeat split.
Qed.

(** * No capacity check on the decimal path *)

(** C7 as stated fails.  Index 501, one above [MAX_LENGTH], is computed
    like any other: the 105 digits of [F(501)] come back and nothing
    reports an error.  At 606 the terminator of the last slot is written
    one byte past the block, and at 612 the slots run into each other and
    256 bytes that are not [F(612)] are returned, still without an error. *)
Lemma fib_read_above_max_no_error :
  MAX_LENGTH < 501
  /\ observe 501 (fib_read 501 zero_heap)
     = (decimal (Fib 501) ++ [NUL], 105, [])
  /\ ~ reports_error (fib_read 501 zero_heap)
  /\ snd (observe 606 (fib_read 606 zero_heap)) = [kmalloc_size 606]
  /\ retval (fib_read 612 zero_heap) = 256
  /\ Z.of_nat (length (decimal (Fib 612))) = 128.
Proof.
split; [reflexivity|].
assert (observe 501 (fib_read 501 zero_heap)
        = (decimal (Fib 501) ++ [NUL], 105, [])) as H501
  by (vm_compute; reflexivity).
split; [exact H501|].
split.
{ unfold reports_error.
  replace (retval (fib_read 501 zero_heap))
    with (snd (fst (observe 501 (fib_read 501 zero_heap)))) by reflexivity.
  rewrite H501. cbn [fst snd]. lia. }
split; [vm_compute; reflexivity|].
split; vm_compute; reflexivity.
Qed.

(** C7, amended.  The decimal path has no capacity check of its own; an
    index above [MAX_LENGTH] is kept out one step earlier, by the seek
    operation.  For every position [fib_device_lseek] sets, from 1 on, and
    an allocation that succeeds with a block that is zero: the position is
    at most [MAX_LENGTH], the read reports no error, no write leaves the
    block, and the bytes handed out are the complete decimal string of
    [F(pos)] with its terminator, the returned value being its length.
    What a read at an index above [MAX_LENGTH] does is left open here. *)
Theorem lseek_then_read_in_block (f_pos offset orig : Z) (h : gmap Z Z) :
  1 <= fst (fib_device_lseek f_pos offset orig) ->
  zeroed_block (fst (fib_device_lseek f_pos offset orig)) h ->
  fst (fib_device_lseek f_pos offset orig) <= MAX_LENGTH
  /\ ~ reports_error (fib_read (fst (fib_device_lseek f_pos offset orig)) h)
  /\ oob_writes (fst (fib_device_lseek f_pos offset orig))
       (after (fib_read (fst (fib_device_lseek f_pos offset orig)) h)) = []
  /\ copied (fib_read (fst (fib_device_lseek f_pos offset orig)) h)
     = decimal (Fib (Z.to_nat (fst (fib_device_lseek f_pos offset orig))))
       ++ [NUL]
  /\ retval (fib_read (fst (fib_device_lseek f_pos offset orig)) h)
     = Z.of_nat
         (length
            (decimal (Fib (Z.to_nat (fst (fib_device_lseek f_pos offset orig)))))).
Proof.
set (pos := fst (fib_device_lseek f_pos offset orig)).
intros Hpos Hzero.
assert (pos <= MAX_LENGTH) as Hmax.
{ unfold pos, fib_device_lseek, lseek_clamp, MAX_LENGTH. cbn [fst].
  repeat case_match; lia. }
destruct (fib_read_zeroed_block pos h ltac:(lia) Hzero) as (Hcopy & Hret & Hoob).
split; [exact Hmax|]. split; [unfold reports_error; rewrite Hret; lia|].
split; [apply Hoob; exact Hpos|]. split; assumption.
Qed.

Lemma lseek_then_read_in_block_witness :
  oob_writes (fst (fib_device_lseek 0 700 0))
    (after (fib_read (fst (fib_device_lseek 0 700 0)) zero_heap)) = [].
Proof.
assert (1 <= fst (fib_device_lseek 0 700 0)) as Hpos
  by (vm_compute; discriminate).
assert (zeroed_block (fst (fib_device_lseek 0 700 0)) zero_heap) as Hzero
  by (intros a _; reflexivity).
pose proof (lseek_then_read_in_block 0 700 0 zero_heap Hpos Hzero)
  as (_ & _ & Hoob & _).
exact Hoob.
Defined.

(** * Further properties of the fast-doubling engine *)

Lemma fib_sequence_mod k :
  0 <= k < 2 ^ 63 -> fib_sequence k = wrap64 (Fib (Z.to_nat k)).
Proof.
intros Hk. unfold fib_sequence.
destruct (Z.lt_ge_cases k 2) as [Hlt|Hge].
- unfold fib_sequence_run. destruct (Z.ltb_spec k 2) as [_|]; [|lia].
  cbn [fst]. assert (k = 0 \/ k = 1) as [-> | ->] by lia; reflexivity.
- rewrite fib_sequence_run_spec by lia. reflexivity.
Qed.

(** X1. The scalar engine is exact up to index 92 and at no index above:
    for an index a [long long] can hold, [fib_sequence k] is [F(k)] if and
    only if [k <= 92]. *)
Theorem fib_sequence_exact_iff (k : Z) :
  0 <= k < 2 ^ 63 ->
  (fib_sequence k = Fib (Z.to_nat k) <-> k <= 92).
Proof.
intros Hk. rewrite fib_sequence_mod by exact Hk.
assert (Fib 92 < 2 ^ 63) as H92 by (vm_compute; reflexivity).
assert (2 ^ 63 <= Fib 93) as H93 by (vm_compute; discriminate).
pose proof (proj1 (Fib_nonneg (Z.to_nat k))) as Hpos.
split.
- intros Heq. destruct (Z.le_gt_cases k 92) as [Hle|Hgt]; [exact Hle|].
  pose proof (Fib_mono 93 (Z.to_nat k) ltac:(lia)) as Hmono.
  pose proof (wrap64_range (Fib (Z.to_nat k))) as Hr. lia.
- intros Hle. apply wrap64_id.
  pose proof (Fib_mono (Z.to_nat k) 92 ltac:(lia)) as Hmono. lia.
Qed.

Lemma fib_sequence_exact_iff_witness :
  fib_sequence 60 = Fib (Z.to_nat 60) <-> 60 <= 92.
Proof.
apply (fib_sequence_exact_iff 60). vm_compute. split; [discriminate|reflexivity].
Defined.

(** X2. The results of the scalar engine obey the Fibonacci recurrence in
    native arithmetic, overflow included: [fib_sequence k] is the wrapped
    sum of [fib_sequence (k - 1)] and [fib_sequence (k - 2)]. *)
Theorem fib_sequence_recurrence (k : Z) :
  2 <= k < 2 ^ 63 ->
  fib_sequence k = add64 (fib_sequence (k - 1)) (fib_sequence (k - 2)).
Proof.
intros Hk. rewrite !fib_sequence_mod by lia.
unfold add64. apply wrap64_congr.
repeat setoid_rewrite wrap64_eq64.
replace (Z.to_nat k) with (S (S (Z.to_nat (k - 2)))) by lia.
replace (Z.to_nat (k - 1)) with (S (Z.to_nat (k - 2))) by lia.
rewrite Fib_SS. unfold eq64. f_equal. lia.
Qed.

Lemma fib_sequence_recurrence_witness :
  fib_sequence 100 = add64 (fib_sequence (100 - 1)) (fib_sequence (100 - 2)).
Proof.
apply (fib_sequence_recurrence 100). vm_compute. split; [discriminate|reflexivity].
Defined.

(** X3. The doubling loop runs once per bit of the index: for [k >= 2] the
    number of iterations is the bit length of [k], so at most 63. *)
Theorem fib_sequence_iterations (k : Z) :
  2 <= k < 2 ^ 63 ->
  snd (fib_sequence_run k) = Z.to_nat (Z.log2 k + 1)
  /\ (2 <= snd (fib_sequence_run k) <= 63)%nat.
Proof.
intros Hk. rewrite fib_sequence_run_spec by exact Hk. cbn [snd].
split; [reflexivity|].
assert (1 <= Z.log2 k) as Hlo by (apply Z.log2_le_pow2; lia).
assert (Z.log2 k < 63) as Hhi by (apply Z.log2_lt_pow2; lia).
lia.
Qed.

Lemma fib_sequence_iterations_witness :
  snd (fib_sequence_run 1000) = Z.to_nat (Z.log2 1000 + 1)
  /\ (2 <= snd (fib_sequence_run 1000) <= 63)%nat.
Proof.
apply (fib_sequence_iterations 1000). vm_compute. split; [discriminate|reflexivity].
Defined.

(** * Further properties of the adder *)

Lemma sum_digits_length X Y :
  length (fst (sum_digits X Y)) = Nat.max (length X) (length Y).
Proof.
unfold sum_digits.
pose proof (add_both_digits_length X Y 0) as H1.
destruct (add_both_digits X Y 0) as [D1 c1]. cbn [fst] in H1.
pose proof (add_one_digits_length (drop (length Y) X ++ drop (length X) Y) c1)
  as H2.
destruct (add_one_digits _ c1) as [D2 c2]. cbn [fst] in *.
rewrite length_app, H1, H2, length_app, !length_drop. lia.
Qed.

Lemma cstring_ext s s' p :
  (forall j, 0 <= j <= strlen s p -> load s' (p + j) = load s (p + j)) ->
  cstring s' p = cstring s p.
Proof.
intros Hsame. destruct (strlen_spec s p) as (Hlen & Hrun & Hend).
assert (strlen s' p = strlen s p) as Heq.
{ apply strlen_unique; [exact Hlen| |rewrite Hsame by lia; exact Hend].
  intros j Hj. rewrite Hsame by lia. apply Hrun. exact Hj. }
unfold cstring. rewrite Heq. apply read_bytes_ext.
intros j Hj. apply Hsame. lia.
Qed.

(** X4. On two digit strings, with the output buffer away from the operands
    and its byte at index [max] NUL beforehand, [add_string] leaves the
    exact sum: a digit string whose value is the sum of the values of the
    operands, of length [max] or [max + 1]. *)
Theorem add_string_exact (x y next : Z) (s : kmem) :
  let X := cstring s x in
  let Y := cstring s y in
  let hi := Z.max (strlen s x) (strlen s y) in
  let s' := add_string x y next s in
  Forall is_digit X -> Forall is_digit Y ->
  strlen s x < 2 ^ 31 - 1 -> strlen s y < 2 ^ 31 - 1 ->
  (forall j j', 0 <= j <= hi + 1 ->
     (0 <= j' < strlen s x -> next + j <> x + j')
     /\ (0 <= j' < strlen s y -> next + j <> y + j')) ->
  load s (next + hi) = NUL ->
  Forall is_digit (cstring s' next)
  /\ le_value (cstring s' next) = le_value X + le_value Y
  /\ hi <= strlen s' next <= hi + 1.
Proof.
intros X Y hi s' HX HY Hm Hn Hdisj Hz.
destruct (add_string_digits x y next s HX HY Hm Hn Hdisj)
  as (Hlen & Hval & Hcarry & _ & Hnone & _).
destruct (sum_digits_value X Y HX HY) as (HD & _ & Hc & _).
fold X Y hi s' in Hlen, Hval, Hcarry, Hnone.
set (D := fst (sum_digits X Y)) in *. set (c := snd (sum_digits X Y)) in *.
assert (c = 0 \/ c = 1) as [Hc0|Hc1] by lia.
- rewrite <- (cstring_length s' next), (Hnone Hc0 Hz).
  rewrite Hc0 in Hval. split; [exact HD|]. split; lia.
- rewrite <- (cstring_length s' next), (Hcarry Hc1).
  rewrite Hc1 in Hval. rewrite le_value_app, length_app. cbn [le_value length].
  split; [apply Forall_app; split;
          [exact HD | repeat constructor; unfold is_digit, chr1, chr0; lia]|].
  rewrite Hlen. unfold chr1, chr0. split; lia.
Qed.

Lemma add_string_exact_witness :
  let s := kmalloc {[ 0 := 55; 128 := 53 ]} in
  Forall is_digit (cstring (add_string 0 128 256 s) 256)
  /\ le_value (cstring (add_string 0 128 256 s) 256)
     = le_value (cstring s 0) + le_value (cstring s 128)
  /\ Z.max (strlen s 0) (strlen s 128) <= strlen (add_string 0 128 256 s) 256
     <= Z.max (strlen s 0) (strlen s 128) + 1.
Proof.
intros s.
assert (strlen s 0 = 1) as Hx by (vm_compute; reflexivity).
assert (strlen s 128 = 1) as Hy by (vm_compute; reflexivity).
apply (add_string_exact 0 128 256 s).
- change (cstring s 0) with [55]. repeat constructor; vm_compute; discriminate.
- change (cstring s 128) with [53]. repeat constructor; vm_compute; discriminate.
- rewrite Hx. vm_compute. reflexivity.
- rewrite Hy. vm_compute. reflexivity.
- intros j j' Hj. rewrite Hx, Hy in *. lia.
- vm_compute. reflexivity.
Defined.

(** X5. With the output buffer away from the operand strings and their
    terminators, [add_string] writes only the bytes at indices
    [0 .. max + 1] of the output buffer: every other byte of the heap,
    and both operand strings, are as before. *)
Theorem add_string_frame (x y next : Z) (s : kmem) :
  let hi := Z.max (strlen s x) (strlen s y) in
  let s' := add_string x y next s in
  strlen s x < 2 ^ 31 - 1 -> strlen s y < 2 ^ 31 - 1 ->
  (forall j j', 0 <= j <= hi + 1 ->
     (0 <= j' <= strlen s x -> next + j <> x + j')
     /\ (0 <= j' <= strlen s y -> next + j <> y + j')) ->
  (forall a, ~ (next <= a <= next + hi + 1) -> load s' a = load s a)
  /\ cstring s' x = cstring s x
  /\ cstring s' y = cstring s y
  /\ exists new, wlog s' = new ++ wlog s
                 /\ forall a, In a new -> next <= a <= next + hi + 1.
Proof.
intros hi s' Hm Hn Hdisj.
pose proof (strlen_nonneg s x) as Hm0. pose proof (strlen_nonneg s y) as Hn0.
assert (s' = store (next + (hi + 1)) NUL
               (if snd (sum_digits (cstring s x) (cstring s y)) =? 0
                then store_list next (fst (sum_digits (cstring s x) (cstring s y))) s
                else store (next + hi) chr1
                       (store_list next
                          (fst (sum_digits (cstring s x) (cstring s y))) s)))
  as Hs'.
{ unfold s'. rewrite add_string_eq; [reflexivity | exact Hm | exact Hn |].
  intros j j' Hj. specialize (Hdisj j j' Hj). fold hi in Hj. lia. }
pose proof (sum_digits_length (cstring s x) (cstring s y)) as HlenD.
set (D := fst (sum_digits (cstring s x) (cstring s y))) in *.
set (c := snd (sum_digits (cstring s x) (cstring s y))) in *.
assert (Z.of_nat (length D) = hi) as Hhi.
{ rewrite HlenD, Nat2Z.inj_max, !cstring_length. reflexivity. }
assert (forall a, ~ (next <= a <= next + hi + 1) -> load s' a = load s a)
  as Hframe.
{ intros a Ha. rewrite Hs', load_store_ne by lia.
  destruct (c =? 0).
  - rewrite load_store_list.
    destruct (Z.leb_spec next a); [|reflexivity].
    destruct (Z.ltb_spec a (next + Z.of_nat (length D))); [lia|reflexivity].
  - rewrite load_store_ne, load_store_list by lia.
    destruct (Z.leb_spec next a); [|reflexivity].
    destruct (Z.ltb_spec a (next + Z.of_nat (length D))); [lia|reflexivity]. }
split; [exact Hframe|]. split; [|split].
- apply cstring_ext. intros j Hj. apply Hframe. intros Ha.
  specialize (Hdisj (x + j - next) j ltac:(lia)). lia.
- apply cstring_ext. intros j Hj. apply Hframe. intros Ha.
  specialize (Hdisj (y + j - next) j ltac:(lia)). lia.
- assert (forall a,
            In a (rev (map (fun i => next + Z.of_nat i) (seq 0 (length D)))) ->
            next <= a <= next + hi + 1) as Hdig.
  { intros a Ha. apply in_rev, in_map_iff in Ha.
    destruct Ha as (i & <- & Hi). apply in_seq in Hi. lia. }
  rewrite Hs'. cbn [wlog store]. destruct (c =? 0).
  + rewrite wlog_store_list.
    exists ((next + (hi + 1))
            :: rev (map (fun i => next + Z.of_nat i) (seq 0 (length D)))).
    split; [reflexivity|]. intros a [<-|Ha]; [lia | apply Hdig; exact Ha].
  + cbn [wlog store]. rewrite wlog_store_list.
    exists ((next + (hi + 1)) :: (next + hi)
            :: rev (map (fun i => next + Z.of_nat i) (seq 0 (length D)))).
    split; [reflexivity|].
    intros a [<-|[<-|Ha]]; [lia | lia | apply Hdig; exact Ha].
Qed.

Lemma add_string_frame_witness :
  let s := kmalloc {[ 0 := 55; 128 := 53 ]} in
  cstring (add_string 0 128 256 s) 0 = cstring s 0.
Proof.
intros s.
assert (strlen s 0 = 1) as Hx by (vm_compute; reflexivity).
assert (strlen s 128 = 1) as Hy by (vm_compute; reflexivity).
destruct (add_string_frame 0 128 256 s) as (_ & Hkeep & _).
- rewrite Hx. vm_compute. reflexivity.
- rewrite Hy. vm_compute. reflexivity.
- intros j j' Hj. rewrite Hx, Hy in *. lia.
- exact Hkeep.
Defined.

(** * Further properties of the formatter and of the decimal engine *)

(** X6. Reversing twice gives the buffer back: two calls of
    [reverse_string] with the same arguments leave every byte of the heap
    as it was. *)
Theorem reverse_string_involutive (s : kmem) (str n : Z) :
  1 <= n <= 2 ^ 31 ->
  (forall j, 0 <= j < n -> 0 <= load s (str + j) < 256) ->
  forall a,
    load (reverse_string str (to_u64 (n - 1))
            (reverse_string str (to_u64 (n - 1)) s)) a
    = load s a.
Proof.
intros Hn Hbytes a. rewrite to_u64_id by lia. unfold reverse_string.
destruct (reverse_loop_spec str (n - 1) ltac:(lia) (Z.to_nat (n - 1)) 0 s)
  as [Hrev Hsame]; [lia | lia | lia | intros j Hj; apply Hbytes; lia |].
set (s1 := reverse_loop (Z.to_nat (n - 1)) str (n - 1) 0 s) in *.
destruct (reverse_loop_spec str (n - 1) ltac:(lia) (Z.to_nat (n - 1)) 0 s1)
  as [Hrev' Hsame']; [lia | lia | lia | |].
{ intros j Hj. rewrite Hrev by lia. apply Hbytes. lia. }
destruct (Z.lt_ge_cases a str) as [Hlo|Hlo];
  [rewrite Hsame', Hsame by lia; reflexivity|].
destruct (Z.lt_ge_cases (str + (n - 1)) a) as [Hhi|Hhi];
  [rewrite Hsame', Hsame by lia; reflexivity|].
replace a with (str + (a - str)) by lia.
rewrite Hrev', Hrev by lia. f_equal. lia.
Qed.

Lemma reverse_string_involutive_witness :
  let s := kmalloc (list_to_map [(0, 52); (1, 51); (2, 50); (3, 49)]) in
  load (reverse_string 0 (to_u64 (4 - 1)) (reverse_string 0 (to_u64 (4 - 1)) s)) 1
  = load s 1.
Proof.
intros s. apply (reverse_string_involutive s 0 4); [lia|].
intros j Hj.
assert (j = 0 \/ j = 1 \/ j = 2 \/ j = 3) as [-> | [-> | [-> | ->]]] by lia;
  vm_compute; split; congruence.
Defined.

Lemma zeroed_block_empty k : zeroed_block k zero_heap.
Proof. intros a _. reflexivity. Qed.

(** X7. On a block that is zero when [kmalloc] hands it out, the decimal
    engine is exact for every index up to [MAX_LENGTH]: the bytes copied
    out are the decimal string of [F(k)], most significant digit first,
    and its terminator; the returned value is the number of digits; from
    index 1 on no write leaves the block. *)
Theorem fib_read_exact_on_zeroed_block (k : Z) (h : gmap Z Z) :
  0 <= k <= MAX_LENGTH -> zeroed_block k h ->
  copied (fib_read k h) = decimal (Fib (Z.to_nat k)) ++ [NUL]
  /\ retval (fib_read k h) = Z.of_nat (length (decimal (Fib (Z.to_nat k))))
  /\ (1 <= k -> oob_writes k (after (fib_read k h)) = []).
Proof. exact (fib_read_zeroed_block k h). Qed.

Lemma fib_read_exact_on_zeroed_block_witness :
  copied (fib_read 10 zero_heap) = decimal (Fib (Z.to_nat 10)) ++ [NUL].
Proof.
assert (0 <= 10 <= MAX_LENGTH) as Hk by (vm_compute; split; discriminate).
pose proof (fib_read_exact_on_zeroed_block 10 zero_heap Hk (zeroed_block_empty 10))
  as (Hcopy & _).
exact Hcopy.
Defined.

(** X8. The table on a zeroed block, for an index from 1 to [MAX_LENGTH]:
    slot [i] holds the decimal string of [F(i)], least significant digit
    first; every entry from 2 on is the exact sum of the two before it;
    all writes go into the block, slot after slot in increasing order. *)
Theorem fib_table_on_zeroed_block (k : Z) (h : gmap Z Z) :
  1 <= k <= MAX_LENGTH -> zeroed_block k h ->
  (forall i, 0 <= i <= k ->
     cstring (fib_table k (kmalloc h)) (res i)
     = decimal_le (Fib (Z.to_nat i)))
  /\ (forall i, 2 <= i <= k ->
        le_value (cstring (fib_table k (kmalloc h)) (res i))
        = le_value (cstring (fib_table k (kmalloc h)) (res (i - 1)))
          + le_value (cstring (fib_table k (kmalloc h)) (res (i - 2))))
  /\ writes_in_block k (fib_table k (kmalloc h))
  /\ slot_ordered (wlog (fib_table k (kmalloc h))).
Proof.
intros Hk Hzero.
destruct (fib_table_zeroed_block k h Hk Hzero) as (_ & H1 & H2 & H3 & H4).
split; [exact H1|]. split; [exact H2|]. split; assumption.
Qed.

Lemma fib_table_on_zeroed_block_witness :
  slot_ordered (wlog (fib_table 10 (kmalloc zero_heap))).
Proof.
assert (1 <= 10 <= MAX_LENGTH) as Hk by (vm_compute; split; discriminate).
pose proof (fib_table_on_zeroed_block 10 zero_heap Hk (zeroed_block_empty 10))
  as (_ & _ & _ & Hord).
exact Hord.
Defined.

Lemma le_value_top_zero l :
  Forall is_digit l ->
  le_value (l ++ [chr0]) < 10 ^ Z.of_nat (length l).
Proof.
intros Hd. rewrite le_value_app. cbn [le_value].
pose proof (le_value_bound l Hd). lia.
Qed.

(** The top digit of the decimal string of a positive number is not '0'. *)
Lemma decimal_head v :
  1 <= v -> nth 0 (decimal v) 0 <> chr0 /\ is_digit (nth 0 (decimal v) 0).
Proof.
intros Hv.
destruct (decimal_le_spec v ltac:(lia)) as (Hd & Hval & Hlen & Hlow).
unfold decimal.
remember (decimal_le v) as R eqn:HR. clear HR.
revert Hd Hval Hlen Hlow.
destruct R as [|d l _] using rev_ind; intros Hd Hval Hlen Hlow;
  [cbn [length] in Hlen; lia|].
rewrite rev_app_distr. cbn [rev app nth].
apply Forall_app in Hd. destruct Hd as [Hdl Hdd].
apply Forall_cons in Hdd. destruct Hdd as [Hdig _]. split; [|exact Hdig].
intros ->. pose proof (le_value_top_zero l Hdl) as Htop.
rewrite Hval in Htop. rewrite length_app in Hlow. cbn [length] in Hlow.
replace (Z.of_nat (length l + 1) - 1) with (Z.of_nat (length l)) in Hlow by lia.
lia.
Qed.

(** X9. On a zeroed block the bytes handed to the caller are a well-formed
    decimal string: between 1 and 105 digits, every one an ASCII digit,
    the first not '0' unless the index is 0, then the NUL; the returned
    value is the number of digits.  The string and its terminator fit a
    106-byte buffer. *)
Theorem fib_read_output_format (k : Z) (h : gmap Z Z) :
  0 <= k <= MAX_LENGTH -> zeroed_block k h ->
  1 <= retval (fib_read k h) <= 105
  /\ Z.of_nat (length (copied (fib_read k h))) = retval (fib_read k h) + 1
  /\ (forall t, (Z.of_nat t < retval (fib_read k h)) ->
        is_digit (nth t (copied (fib_read k h)) 0))
  /\ nth (Z.to_nat (retval (fib_read k h))) (copied (fib_read k h)) 0 = NUL
  /\ (1 <= k -> nth 0 (copied (fib_read k h)) 0 <> chr0).
Proof.
intros Hk Hzero.
destruct (fib_read_zeroed_block k h Hk Hzero) as (Hcopy & Hret & _).
rewrite Hcopy, Hret. unfold decimal. rewrite length_app, !length_rev.
destruct (decimal_le_spec (Fib (Z.to_nat k)) ltac:(apply Fib_nonneg))
  as (Hd & _ & Hlen & _).
pose proof (decimal_le_Fib_length (Z.to_nat k)
              ltac:(unfold MAX_LENGTH in *; lia)) as H105.
set (R := decimal_le (Fib (Z.to_nat k))) in *.
split; [lia|]. split; [cbn [length]; lia|]. split; [|split].
- intros t Ht. rewrite app_nth1 by (rewrite length_rev; lia).
  apply nth_digit; [|rewrite length_rev; lia].
  apply Forall_forall. intros c Hc. rewrite Forall_forall in Hd.
  apply Hd. apply list_elem_of_In. apply list_elem_of_In in Hc.
  apply in_rev. exact Hc.
- rewrite Nat2Z.id, app_nth2, length_rev, Nat.sub_diag by (rewrite length_rev; lia).
  reflexivity.
- intros Hk1. rewrite app_nth1 by (rewrite length_rev; lia).
  apply (decimal_head (Fib (Z.to_nat k))).
  replace (Z.to_nat k) with (S (Z.to_nat (k - 1))) by lia. apply Fib_S_pos.
Qed.

Lemma fib_read_output_format_witness :
  1 <= retval (fib_read 30 zero_heap) <= 105.
Proof.
assert (0 <= 30 <= MAX_LENGTH) as Hk by (vm_compute; split; discriminate).
pose proof (fib_read_output_format 30 zero_heap Hk (zeroed_block_empty 30))
  as (Hret & _).
exact Hret.
Defined.

(** X11. Where both engines are valid they agree: up to index 92, on a
    zeroed block, the decimal engine hands out the decimal string of the
    number the fast-doubling engine returns. *)
Theorem engines_agree (k : Z) (h : gmap Z Z) :
  0 <= k <= 92 -> zeroed_block k h ->
  copied (fib_read k h) = decimal (fib_sequence k) ++ [NUL].
Proof.
intros Hk Hzero.
destruct (fib_read_zeroed_block k h ltac:(unfold MAX_LENGTH; lia) Hzero)
  as (-> & _).
rewrite fib_sequence_mod by lia.
rewrite wrap64_id; [reflexivity|].
assert (Fib 92 < 2 ^ 63) as H92 by (vm_compute; reflexivity).
pose proof (Fib_mono (Z.to_nat k) 92 ltac:(lia)) as Hmono.
pose proof (proj1 (Fib_nonneg (Z.to_nat k))). lia.
Qed.

Lemma engines_agree_witness :
  copied (fib_read 50 zero_heap) = decimal (fib_sequence 50) ++ [NUL].
Proof.
assert (0 <= 50 <= 92) as Hk by (vm_compute; split; discriminate).
exact (engines_agree 50 zero_heap Hk (zeroed_block_empty 50)).
Defined.

(** X10. For the indices 0 and 1 the result does not depend on what the
    block held: from every heap the call copies out the seeded digit and
    a NUL and returns 1; for index 1 all its writes are inside the
    block. *)
Theorem fib_read_small_index (h : gmap Z Z) :
  copied (fib_read 0 h) = [chr0; NUL] /\ retval (fib_read 0 h) = 1
  /\ copied (fib_read 1 h) = [chr1; NUL] /\ retval (fib_read 1 h) = 1
  /\ oob_writes 1 (after (fib_read 1 h)) = [].
Proof.
set (s1 := store 129 NUL (store 128 chr1 (store 1 NUL (store 0 chr0 (kmalloc h))))).
assert (load s1 0 = chr0 /\ load s1 1 = NUL /\ load s1 128 = chr1
        /\ load s1 129 = NUL) as (L0 & L1 & L128 & L129).
{ unfold s1. repeat split.
  - rewrite !load_store_ne by lia. apply load_store_eq.
  - rewrite !load_store_ne by lia. apply load_store_eq.
  - rewrite load_store_ne by lia. apply load_store_eq.
  - apply load_store_eq. }
assert (strlen s1 0 = 1) as Hlen0.
{ apply strlen_unique; [lia| |exact L1].
  intros j Hj. assert (j = 0) as -> by lia. rewrite Z.add_0_r, L0. discriminate. }
assert (strlen s1 128 = 1) as Hlen1.
{ apply strlen_unique; [lia| |exact L129].
  intros j Hj. assert (j = 0) as -> by lia. rewrite Z.add_0_r, L128. discriminate. }
assert (read_bytes s1 0 2 = [chr0; NUL]) as Hr0.
{ apply (read_bytes_eq s1 0 [chr0; NUL]). intros [|[|t]] Ht; cbn [length] in Ht;
    [exact L0 | exact L1 | lia]. }
assert (read_bytes s1 128 2 = [chr1; NUL]) as Hr1.
{ apply (read_bytes_eq s1 128 [chr1; NUL]). intros [|[|t]] Ht; cbn [length] in Ht;
    [exact L128 | exact L129 | lia]. }
unfold fib_read, fib_sequence_string.
change (fib_table 0 (kmalloc h)) with s1.
change (fib_table 1 (kmalloc h)) with s1.
change (res 0) with 0. change (res 1) with 128.
cbn [copied retval after]. rewrite Hlen0, Hlen1.
change (reverse_string 0 (to_u64 (1 - 1)) s1) with s1.
change (reverse_string 128 (to_u64 (1 - 1)) s1) with s1.
change (Z.to_nat (1 + 1)) with 2%nat.
rewrite Hr0, Hr1. repeat split; reflexivity.
Qed.

(** * Further properties of the seek operation *)

(** X12. The position a seek reports is stable: after any seek, asking for
    the current position ([SEEK_CUR] with offset 0), seeking to the
    reported position ([SEEK_SET]) or to the same place counted from the
    end ([SEEK_END] with [MAX_LENGTH - pos]) returns that position again
    and leaves it in place. *)
Theorem lseek_position_stable (f_pos offset orig : Z) :
  let pos := fst (fib_device_lseek f_pos offset orig) in
  fib_device_lseek pos 0 1 = (pos, pos)
  /\ fib_device_lseek pos pos 0 = (pos, pos)
  /\ fib_device_lseek pos (MAX_LENGTH - pos) 2 = (pos, pos).
Proof.
intros pos.
assert (0 <= pos <= MAX_LENGTH) as Hpos.
{ unfold pos, fib_device_lseek, lseek_clamp, MAX_LENGTH. cbn [fst].
  repeat case_match; lia. }
clearbody pos.
assert (lseek_clamp pos = pos) as Hclamp.
{ unfold lseek_clamp, MAX_LENGTH in *. repeat case_match; lia. }
assert (lseek_resolve pos 0 1 = pos) as H1.
{ change (lseek_resolve pos 0 1) with (wrap64 (pos + 0)).
  rewrite Z.add_0_r. apply wrap64_id. unfold MAX_LENGTH in *. lia. }
assert (lseek_resolve pos pos 0 = pos) as H0 by reflexivity.
assert (lseek_resolve pos (MAX_LENGTH - pos) 2 = pos) as H2.
{ change (lseek_resolve pos (MAX_LENGTH - pos) 2)
    with (wrap64 (MAX_LENGTH - (MAX_LENGTH - pos))).
  replace (MAX_LENGTH - (MAX_LENGTH - pos)) with pos by lia.
  apply wrap64_id. unfold MAX_LENGTH in *. lia. }
unfold fib_device_lseek. rewrite H0, H1, H2, Hclamp. repeat split.
Qed.

(** * Exclusive open *)

Lemma open_step_inv st c :
  (snd st <= 1)%nat /\ (fst st = true <-> snd st = 1%nat) ->
  (snd (open_step st c) <= 1)%nat
  /\ (fst (open_step st c) = true <-> snd (open_step st c) = 1%nat).
Proof.
destruct st as [locked files]. cbn [fst snd]. intros [Hle Hiff].
destruct c; cbn [open_step].
- destruct locked.
  + cbn. split; [exact Hle | exact Hiff].
  + cbn. assert (files = O) as ->.
    { destruct files as [|[|n]]; [reflexivity| |lia].
      destruct Hiff as [_ H1]. discriminate (H1 eq_refl). }
    split; [lia | split; reflexivity].
- destruct files as [|files]; cbn [fst snd].
  + split; [exact Hle | exact Hiff].
  + cbn. split; [lia|]. split; [discriminate | lia].
Qed.

(** X13. The device is opened by one file at a time.  In every sequence of
    opens and closes from a free mutex at most one file is open, and the
    mutex is held exactly when one is.  An open while the mutex is held
    returns [-EBUSY] and changes nothing; an open after a release returns
    0 and takes the mutex. *)
Theorem fib_open_exclusive (cs : list ocall) (locked : bool) :
  (snd (fold_left open_step cs (false, O)) <= 1)%nat
  /\ (fst (fold_left open_step cs (false, O)) = true
      <-> snd (fold_left open_step cs (false, O)) = 1%nat)
  /\ fib_open true = (- EBUSY, true)
  /\ fib_open (snd (fib_release locked)) = (0, true).
Proof.
assert (forall st,
          (snd st <= 1)%nat /\ (fst st = true <-> snd st = 1%nat) ->
          (snd (fold_left open_step cs st) <= 1)%nat
          /\ (fst (fold_left open_step cs st) = true
              <-> snd (fold_left open_step cs st) = 1%nat)) as Hinv.
{ induction cs as [|c cs IH]; intros st Hst; [exact Hst|].
  cbn [fold_left]. apply IH. apply open_step_inv. exact Hst. }
destruct (Hinv (false, O)) as [H1 H2].
{ cbn [fst snd]. split; [lia | split; discriminate]. }
split; [exact H1|]. split; [exact H2|]. split; reflexivity.
Qed.

(** * Module initialisation and exit *)




